(** * Storage engine of TDB: frame manager and redo-log recovery

    Shallow embedding of
    - [src/server/storage_engine/recover/log_manager.cpp]
      ([LogEntryIterator::next], [valid], [LogManager::append_log],
       [append_begin_trx_log], [append_rollback_trx_log],
       [append_commit_trx_log], [append_record_log], [sync],
       [LogManager::recover]);
    - [src/server/storage_engine/buffer/frame_manager.cpp]
      ([FrameManager::cleanup], [alloc], [get], [get_internal],
       [evict_frames], [find_list], [free], [free_internal]).

    Collaborators whose code is not part of the sources (LogFile, LogEntry,
    LogBuffer, the transaction manager, FrameLruCache, FrameAllocator,
    Frame and the ASSERT macro) are modelled from the design document; each
    such definition says so in its comment. *)

From Stdlib Require Import List ZArith Lia Bool Arith.
Import ListNotations.
Open Scope Z_scope.

(** Return codes used by the two subsystems ([include/common/rc.h]). *)
Inductive RC :=
| SUCCESS
| RECORD_EOF
| IOERR
| NOMEM
| INVALID_ARGUMENT
| INTERNAL.

Scheme Equality for RC.

Definition rc_is_success (rc : RC) : bool :=
  match rc with SUCCESS => true | _ => false end.

(* ------------------------------------------------------------------ *)
(** ** Log file, log entries and the entry iterator *)

Module Log.

(** Little-endian value of a byte string (bytes are [Z] in [0, 256)). *)
Fixpoint le_value (bs : list Z) : Z :=
  match bs with
  | [] => 0
  | b :: r => b + 256 * le_value r
  end.

(** Reinterpretation of an unsigned [w]-bit value as a signed one. *)
Definition to_signed (w : Z) (v : Z) : Z :=
  if v <? 2 ^ (w - 1) then v else v - 2 ^ w.

(** Modelled from the spec: the LogEntryHeader of the log format of
    section 6: [log_type] u16, [trx_id] i32, [log_entry_len] i32,
    [lsn] i64, little endian, no padding (18 bytes). *)
Record LogEntryHeader := {
  log_type_ : Z;
  trx_id_ : Z;
  log_entry_len_ : Z;
  lsn_ : Z
}.

Definition HEADER_SIZE : nat := 18.

Definition decode_header (bs : list Z) : LogEntryHeader :=
  {| log_type_ := le_value (firstn 2 bs);
     trx_id_ := to_signed 32 (le_value (firstn 4 (skipn 2 bs)));
     log_entry_len_ := to_signed 32 (le_value (firstn 4 (skipn 6 bs)));
     lsn_ := to_signed 64 (le_value (firstn 8 (skipn 10 bs))) |}.

(** Modelled from the spec: the codes of LogEntryType (section 3 lists the
    kinds; the numbering is the declaration order of the enum). *)
Definition ERROR : Z := 0.
Definition MTR_BEGIN : Z := 1.
Definition MTR_COMMIT : Z := 2.
Definition MTR_ROLLBACK : Z := 3.
Definition INSERT : Z := 4.
Definition DELETE : Z := 5.

(** Modelled from the spec: a LogEntry is its header and its payload;
    [LogEntry::build(header, data)] copies both (no I/O, no failure). *)
Record LogEntry := {
  header : LogEntryHeader;
  payload : list Z
}.

Definition build (h : LogEntryHeader) (data : list Z) : LogEntry :=
  {| header := h; payload := data |}.

Definition log_type (e : LogEntry) : Z := log_type_ (header e).
Definition trx_id (e : LogEntry) : Z := trx_id_ (header e).

(** Modelled from the spec: a LogFile is a byte sequence read through a
    cursor (section 4.4).  [read n] succeeds and advances the cursor by
    [n] when [n] bytes remain; otherwise it fails, consumes the rest of the
    file and raises the end-of-file flag that [eof()] reports. *)
Record LogFile := {
  contents : list Z;
  cursor : nat;
  eof_flag : bool
}.

Definition read (n : nat) (f : LogFile) : RC * list Z * LogFile :=
  if (cursor f + n <=? length (contents f))%nat then
    (SUCCESS, firstn n (skipn (cursor f) (contents f)),
     {| contents := contents f; cursor := cursor f + n; eof_flag := eof_flag f |})
  else
    (IOERR, [],
     {| contents := contents f; cursor := length (contents f); eof_flag := true |}).

Definition eof (f : LogFile) : bool := eof_flag f.

Definition open_file (d : list Z) : LogFile :=
  {| contents := d; cursor := 0; eof_flag := false |}.

(** [LogEntryIterator]: the bound file and the current entry
    ([log_entry_], a possibly null pointer). *)
Record LogEntryIterator := {
  log_file_ : LogFile;
  log_entry_ : option LogEntry
}.

(** [LogEntryIterator::init] *)
Definition init (f : LogFile) : LogEntryIterator :=
  {| log_file_ := f; log_entry_ := None |}.

(** [LogEntryIterator::next] (log_manager.cpp lines 13-45). *)
Definition next (it : LogEntryIterator) : RC * LogEntryIterator :=
  let '(rc, hbytes, f1) := read HEADER_SIZE (log_file_ it) in
  if negb (rc_is_success rc) then
    if eof f1 then (RECORD_EOF, {| log_file_ := f1; log_entry_ := log_entry_ it |})
    else (rc, {| log_file_ := f1; log_entry_ := log_entry_ it |})
  else
    let h := decode_header hbytes in
    let entry_len := log_entry_len_ h in
    if 0 <? entry_len then
      let '(rc2, data, f2) := read (Z.to_nat entry_len) f1 in
      if negb (rc_is_success rc2) then
        (rc2, {| log_file_ := f2; log_entry_ := log_entry_ it |})
      else (rc2, {| log_file_ := f2; log_entry_ := Some (build h data) |})
    else (rc, {| log_file_ := f1; log_entry_ := Some (build h []) |}).

(** [LogEntryIterator::valid] *)
Definition valid (it : LogEntryIterator) : bool :=
  match log_entry_ it with Some _ => true | None => false end.

(** Serialisation of an entry in the format of section 6, used to build
    concrete log files. *)
Fixpoint le_bytes (n : nat) (v : Z) : list Z :=
  match n with
  | O => []
  | S k => (v mod 256) :: le_bytes k (v / 256)
  end.

Definition encode_entry (ty id : Z) (data : list Z) : list Z :=
  le_bytes 2 ty ++ le_bytes 4 id ++ le_bytes 4 (Z.of_nat (length data))
  ++ le_bytes 8 0 ++ data.

End Log.

(* ------------------------------------------------------------------ *)
(** ** Recovery ([LogManager::recover]) *)

Module Recovery.
Import Log.

(** Calls the recovery driver makes on the transaction manager and on the
    transactions it hands out. *)
Inductive TrxCall :=
| CreateTrx (id : Z)
| Redo (id : Z) (e : LogEntry)
| Rollback (id : Z).

(** Modelled from the spec: the transaction manager of section 6.
    [create_trx(id)] registers a transaction with that id; [find_trx(id)]
    returns it when one was created, null otherwise; [redo] and
    [rollback] are recorded in [calls] (the effect on the database is the
    transaction module's business). *)
Record TrxManager := {
  trxs : list Z;
  calls : list TrxCall
}.

Definition empty_trx_manager : TrxManager := {| trxs := []; calls := [] |}.

Definition create_trx (id : Z) (tm : TrxManager) : TrxManager :=
  {| trxs := trxs tm ++ [id]; calls := calls tm ++ [CreateTrx id] |}.

Definition find_trx (id : Z) (tm : TrxManager) : option Z :=
  if existsb (Z.eqb id) (trxs tm) then Some id else None.

Definition redo (t : Z) (e : LogEntry) (tm : TrxManager) : TrxManager :=
  {| trxs := trxs tm; calls := calls tm ++ [Redo t e] |}.

Definition rollback (t : Z) (tm : TrxManager) : TrxManager :=
  {| trxs := trxs tm; calls := calls tm ++ [Rollback t] |}.

(** [std::unordered_set<int32_t>]: a duplicate-free list; its iteration
    order is unspecified in C++, the model iterates in insertion order. *)
Definition set_insert (x : Z) (s : list Z) : list Z :=
  if existsb (Z.eqb x) s then s else s ++ [x].

Definition set_erase (x : Z) (s : list Z) : list Z :=
  filter (fun y => negb (Z.eqb x y)) s.

Record RecState := {
  tm : TrxManager;
  uncommitted_trx_ids : list Z
}.

(** The body of the scan loop (log_manager.cpp lines 138-164): [None]
    is the dereference of a null [find_trx] result. *)
Definition process_entry (e : LogEntry) (s : RecState) : option RecState :=
  let id := trx_id e in
  if log_type e =? MTR_BEGIN then
    Some {| tm := create_trx id (tm s);
            uncommitted_trx_ids := set_insert id (uncommitted_trx_ids s) |}
  else if log_type e =? MTR_COMMIT then
    match find_trx id (tm s) with
    | None => None
    | Some t => Some {| tm := redo t e (tm s);
                        uncommitted_trx_ids := set_erase id (uncommitted_trx_ids s) |}
    end
  else if log_type e =? ERROR then Some s
  else
    match find_trx id (tm s) with
    | None => None
    | Some t => Some {| tm := redo t e (tm s);
                        uncommitted_trx_ids := uncommitted_trx_ids s |}
    end.

Inductive LoopOutcome :=
| LoopDone (s : RecState)
| LoopNullDeref (s : RecState)
| LoopOutOfFuel (s : RecState).

(** [for (it.next(); it.valid(); it.next()) { ... }]: the loop ignores the
    return code of [next]; [fuel] bounds the number of iterations. *)
Fixpoint recover_loop (fuel : nat) (it : LogEntryIterator) (s : RecState)
  : LoopOutcome :=
  match fuel with
  | O => LoopOutOfFuel s
  | S f =>
      match log_entry_ it with
      | None => LoopDone s
      | Some e =>
          match process_entry e s with
          | None => LoopNullDeref s
          | Some s' => recover_loop f (snd (next it)) s'
          end
      end
  end.

(** The rollback loop (lines 168-170). *)
Fixpoint rollback_all (ids : list Z) (t : TrxManager) : option TrxManager :=
  match ids with
  | [] => Some t
  | id :: r =>
      match find_trx id t with
      | None => None
      | Some x => rollback_all r (rollback x t)
      end
  end.

Inductive Outcome :=
| Returned (rc : RC) (t : TrxManager)
| NullDeref (t : TrxManager)
| OutOfFuel (t : TrxManager).

Definition init_state : RecState :=
  {| tm := empty_trx_manager; uncommitted_trx_ids := [] |}.

(** [LogManager::recover] on a log file with contents [d], with at most
    [fuel] iterations of the scan loop. *)
Definition recover (fuel : nat) (d : list Z) : Outcome :=
  let it := init (open_file d) in
  match recover_loop fuel (snd (next it)) init_state with
  | LoopNullDeref s => NullDeref (tm s)
  | LoopOutOfFuel s => OutOfFuel (tm s)
  | LoopDone s =>
      match rollback_all (uncommitted_trx_ids s) (tm s) with
      | None => NullDeref (tm s)
      | Some t => Returned SUCCESS t
      end
  end.

(** The entries a fresh iterator yields by successive successful [next]
    calls, at most [fuel] of them. *)
Fixpoint log_entries (fuel : nat) (it : LogEntryIterator) : list LogEntry :=
  match fuel with
  | O => []
  | S f =>
      let '(rc, it') := next it in
      if rc_is_success rc then
        match log_entry_ it' with
        | Some e => e :: log_entries f it'
        | None => []
        end
      else []
  end.

(** Bytes left to read. *)
Definition remaining (it : LogEntryIterator) : nat :=
  (length (contents (log_file_ it)) - cursor (log_file_ it))%nat.

(** All entries of the log from the iterator's position on: every
    successful [next] consumes at least a header, so [remaining + 1] steps
    reach the end. *)
Definition entries (it : LogEntryIterator) : list LogEntry :=
  log_entries (S (remaining it)) it.

Definition entries_of_file (d : list Z) : list LogEntry :=
  entries (init (open_file d)).

(** The precondition of the claim about [find_trx]: every [MTR_COMMIT] and
    every entry of the default branch names a transaction id introduced by
    an earlier [MTR_BEGIN] ([begun] holds the ids begun so far). *)
Fixpoint begun_before (begun : list Z) (es : list LogEntry) : bool :=
  match es with
  | [] => true
  | e :: r =>
      if log_type e =? MTR_BEGIN then begun_before (trx_id e :: begun) r
      else if log_type e =? ERROR then begun_before begun r
      else existsb (Z.eqb (trx_id e)) begun && begun_before begun r
  end.

Definition begin_1 : list Z := encode_entry MTR_BEGIN 1 [].
Definition insert_1 : list Z := encode_entry INSERT 1 [7; 8; 9].
Definition commit_1 : list Z := encode_entry MTR_COMMIT 1 [3; 0; 0; 0].

(** A log holding one complete [MTR_BEGIN(1)] followed by the first 20
    bytes of an [INSERT(1)] entry (header complete, payload torn). *)
Definition torn_log : list Z := begin_1 ++ firstn 20 insert_1.

(** A cleanly written log [BEGIN(1); INSERT(1); COMMIT(1)]. *)
Definition clean_log : list Z := begin_1 ++ insert_1 ++ commit_1.

(** A log holding a single complete [MTR_BEGIN(1)] entry. *)
Definition begin_only_log : list Z := begin_1.

(** A short summary of a call: its kind (0 create, 1 redo, 2 rollback),
    the transaction id and, for a redo, the type of the entry. *)
Definition call_summary (c : TrxCall) : nat * Z * Z :=
  match c with
  | CreateTrx i => (0%nat, i, 0)
  | Redo i e => (1%nat, i, log_type e)
  | Rollback i => (2%nat, i, 0)
  end.

(** The cursor never passes the end of the file. *)
Definition wf (it : LogEntryIterator) : Prop :=
  (cursor (log_file_ it) <= length (contents (log_file_ it)))%nat.

(** The iterator at the end of its file: every further [next] fails. *)
Definition dead (it : LogEntryIterator) : Prop :=
  cursor (log_file_ it) = length (contents (log_file_ it)).

End Recovery.

(* ------------------------------------------------------------------ *)
(** ** Appending to the log ([LogManager::append_log],
    [LogManager::append_record_log]) *)

Module Append.
Import Log.

(** Modelled from the spec: a RID is [(page_num, slot_num)]. *)
Record RID := { rid_page_num : Z; rid_slot_num : Z }.

(** Modelled from the spec: [LogEntry::build_record_entry] (section 4.5)
    builds the record payload [table_id, rid, data_offset, data_len,
    data[data_len]]; [alloc_ok] is whether the allocation of the entry
    succeeds, null is returned when it does not. *)
Definition build_record_entry (alloc_ok : bool) (type trx_id table_id : Z)
    (rid : RID) (data_len data_offset : Z) (data : list Z) : option LogEntry :=
  if alloc_ok then
    let body := le_bytes 4 table_id ++ le_bytes 4 (rid_page_num rid)
                ++ le_bytes 4 (rid_slot_num rid) ++ le_bytes 4 data_offset
                ++ le_bytes 4 data_len ++ firstn (Z.to_nat data_len) data in
    Some {| header := {| log_type_ := type; trx_id_ := trx_id;
                         log_entry_len_ := Z.of_nat (length body); lsn_ := 0 |};
            payload := body |}
  else None.

(** Modelled from the spec: the LogBuffer keeps the appended entries in
    order; [append_log_entry] appends one and succeeds (section 4.6). *)
Record LogBuffer := { buffered : list LogEntry }.

Definition append_log_entry (e : LogEntry) (b : LogBuffer) : RC * LogBuffer :=
  (SUCCESS, {| buffered := buffered b ++ [e] |}).

(** [LogManager::append_log] (log_manager.cpp lines 110-116); the entry
    pointer is [None] when null. *)
Definition append_log (e : option LogEntry) (b : LogBuffer) : RC * LogBuffer :=
  match e with
  | None => (INVALID_ARGUMENT, b)
  | Some e => append_log_entry e b
  end.

(** [LogManager::append_record_log] (lines 100-108). *)
Definition append_record_log (alloc_ok : bool) (type trx_id table_id : Z)
    (rid : RID) (data_len data_offset : Z) (data : list Z) (b : LogBuffer)
    : RC * LogBuffer :=
  match build_record_entry alloc_ok type trx_id table_id rid data_len data_offset data with
  | None => (NOMEM, b)
  | Some e => append_log (Some e) b
  end.

End Append.

(* ------------------------------------------------------------------ *)
(** ** The log manager: builders, [sync] and the transaction appenders *)

Module LogMgr.
Import Log.

(** Modelled from the spec: the serialised form of an entry that the
    LogBuffer writes (section 6): the header fields little endian
    ([log_type] u16, [trx_id] i32, [log_entry_len] i32, [lsn] i64), then
    the payload bytes. *)
Definition serialize_header (h : LogEntryHeader) : list Z :=
  le_bytes 2 (log_type_ h) ++ le_bytes 4 (trx_id_ h)
  ++ le_bytes 4 (log_entry_len_ h) ++ le_bytes 8 (lsn_ h).

Definition serialize_entry (e : LogEntry) : list Z :=
  serialize_header (header e) ++ payload e.

(** Header fields within the ranges of their C++ types. *)
Definition header_ok (h : LogEntryHeader) : Prop :=
  0 <= log_type_ h < 2 ^ 16 /\
  - 2 ^ 31 <= trx_id_ h < 2 ^ 31 /\
  - 2 ^ 31 <= log_entry_len_ h < 2 ^ 31 /\
  - 2 ^ 63 <= lsn_ h < 2 ^ 63.

(** A well-formed entry: its header is in range and [log_entry_len] is the
    size of its payload. *)
Definition entry_ok (e : LogEntry) : Prop :=
  header_ok (header e) /\ log_entry_len_ (header e) = Z.of_nat (length (payload e)).

(** Modelled from the spec: [LogEntry::build_mtr_entry(type, trx_id)] and
    [LogEntry::build_commit_entry(trx_id, commit_xid)] (sections 3 and
    4.5): no payload for begin and rollback, the [commit_xid] as an i32
    for a commit, lsn 0; [alloc_ok] is whether the allocation of the
    entry succeeds, null is returned when it does not. *)
Definition build_mtr_entry (alloc_ok : bool) (type trx_id : Z) : option LogEntry :=
  if alloc_ok then
    Some {| header := {| log_type_ := type; trx_id_ := trx_id;
                         log_entry_len_ := 0; lsn_ := 0 |};
            payload := [] |}
  else None.

Definition build_commit_entry (alloc_ok : bool) (trx_id commit_xid : Z)
  : option LogEntry :=
  if alloc_ok then
    Some {| header := {| log_type_ := MTR_COMMIT; trx_id_ := trx_id;
                         log_entry_len_ := 4; lsn_ := 0 |};
            payload := le_bytes 4 commit_xid |}
  else None.

(** Modelled from the spec: [LogBuffer::flush_buffer(log_file)]
    (section 4.6) writes the buffered entries, serialised and in order, at
    the end of the file and clears the buffer; [write_ok] is whether the
    file write succeeds: when it does not, nothing is written, the buffer
    is kept and [IOERR] is returned. *)
Definition flush_buffer (write_ok : bool) (b : Append.LogBuffer) (file : list Z)
  : RC * Append.LogBuffer * list Z :=
  if write_ok then
    (SUCCESS, {| Append.buffered := [] |},
     file ++ concat (map serialize_entry (Append.buffered b)))
  else (IOERR, b, file).

(** [LogManager]: its log buffer and the bytes of its log file. *)
Record LogManager := {
  log_buffer_ : Append.LogBuffer;
  log_file_ : list Z
}.

(** [LogManager::append_log] (log_manager.cpp lines 110-116). *)
Definition append_log (e : option LogEntry) (lm : LogManager) : RC * LogManager :=
  let '(rc, b) := Append.append_log e (log_buffer_ lm) in
  (rc, {| log_buffer_ := b; log_file_ := log_file_ lm |}).

(** [LogManager::sync] (lines 118-121). *)
Definition sync (write_ok : bool) (lm : LogManager) : RC * LogManager :=
  let '(rc, b, f) := flush_buffer write_ok (log_buffer_ lm) (log_file_ lm) in
  (rc, {| log_buffer_ := b; log_file_ := f |}).

(** [LogManager::append_begin_trx_log] (lines 79-82). *)
Definition append_begin_trx_log (alloc_ok : bool) (trx_id : Z) (lm : LogManager)
  : RC * LogManager :=
  append_log (build_mtr_entry alloc_ok MTR_BEGIN trx_id) lm.

(** [LogManager::append_rollback_trx_log] (lines 84-87). *)
Definition append_rollback_trx_log (alloc_ok : bool) (trx_id : Z) (lm : LogManager)
  : RC * LogManager :=
  append_log (build_mtr_entry alloc_ok MTR_ROLLBACK trx_id) lm.

(** [LogManager::append_commit_trx_log] (lines 89-98). *)
Definition append_commit_trx_log (alloc_ok write_ok : bool) (trx_id commit_xid : Z)
    (lm : LogManager) : RC * LogManager :=
  let '(rc, lm1) := append_log (build_commit_entry alloc_ok trx_id commit_xid) lm in
  if negb (RC_beq rc SUCCESS) then (rc, lm1)
  else sync write_ok lm1.

(** [LogManager::append_record_log] (lines 100-108) on the manager. *)
Definition append_record_log (alloc_ok : bool) (type trx_id table_id : Z)
    (rid : Append.RID) (data_len data_offset : Z) (data : list Z) (lm : LogManager)
  : RC * LogManager :=
  let '(rc, b) := Append.append_record_log alloc_ok type trx_id table_id rid
                    data_len data_offset data (log_buffer_ lm) in
  (rc, {| log_buffer_ := b; log_file_ := log_file_ lm |}).

End LogMgr.

(* ------------------------------------------------------------------ *)
(** ** Frame manager *)

Module Frames.

(** [FrameId]: (file_desc, page_num), structural equality. *)
Record FrameId := { fid_file_desc : Z; fid_page_num : Z }.

Definition frame_id_eqb (a b : FrameId) : bool :=
  (fid_file_desc a =? fid_file_desc b) && (fid_page_num a =? fid_page_num b).

(** Frames are compared by address. *)
Definition ptr := nat.

(** Modelled from the spec: the bookkeeping of a Frame (section 3). *)
Record Frame := { pin_count : nat; page_num : Z }.

(** Modelled from the spec: [Frame::can_evict()] is [pin_count == 0]. *)
Definition can_evict (f : Frame) : bool := Nat.eqb (pin_count f) 0.

(** Modelled from the spec: the FrameLruCache of section 4.2, a list of
    (FrameId, Frame* ) pairs in eviction-candidate order.  [get] moves the
    entry it finds to the back (most recently used), [put] replaces the
    entry of its key and puts it at the back, [remove] drops the key.
    [foreach] visits the entries as they stand when it starts, stopping
    when the visitor returns false. *)
Definition Cache := list (FrameId * ptr).

Fixpoint cache_lookup (k : FrameId) (c : Cache) : option ptr :=
  match c with
  | [] => None
  | (k', v) :: r => if frame_id_eqb k' k then Some v else cache_lookup k r
  end.

Definition cache_remove (k : FrameId) (c : Cache) : Cache :=
  filter (fun kv => negb (frame_id_eqb (fst kv) k)) c.

Definition cache_put (k : FrameId) (v : ptr) (c : Cache) : Cache :=
  cache_remove k c ++ [(k, v)].

Definition cache_get (k : FrameId) (c : Cache) : option ptr * Cache :=
  match cache_lookup k c with
  | Some v => (Some v, cache_put k v c)
  | None => (None, c)
  end.

Fixpoint cache_foreach {A : Type} (visit : A -> FrameId * ptr -> bool * A)
    (c : Cache) (a : A) : A :=
  match c with
  | [] => a
  | x :: r =>
      let '(go_on, a') := visit a x in
      if go_on then cache_foreach visit r a' else a'
  end.

(** The frame manager: the frames' memory (a heap indexed by address),
    the cache [frames_] and the free list of the allocator. *)
Record FrameManager := {
  heap : ptr -> Frame;
  frames_ : Cache;
  allocator_ : list ptr
}.

Definition with_frames (c : Cache) (s : FrameManager) : FrameManager :=
  {| heap := heap s; frames_ := c; allocator_ := allocator_ s |}.

Definition update_frame (p : ptr) (g : Frame -> Frame) (s : FrameManager)
  : FrameManager :=
  {| heap := fun q => if Nat.eqb q p then g (heap s p) else heap s q;
     frames_ := frames_ s; allocator_ := allocator_ s |}.

Definition pin (p : ptr) : FrameManager -> FrameManager :=
  update_frame p (fun f => {| pin_count := S (pin_count f); page_num := page_num f |}).

Definition unpin (p : ptr) : FrameManager -> FrameManager :=
  update_frame p (fun f => {| pin_count := Nat.pred (pin_count f); page_num := page_num f |}).

Definition set_page_num (p : ptr) (pn : Z) : FrameManager -> FrameManager :=
  update_frame p (fun f => {| pin_count := pin_count f; page_num := pn |}).

(** Modelled from the spec: the FrameAllocator of section 4.1, a bounded
    pool handing out the head of its free list, null when exhausted. *)
Definition allocator_alloc (s : FrameManager) : option (ptr * FrameManager) :=
  match allocator_ s with
  | [] => None
  | p :: r => Some (p, {| heap := heap s; frames_ := frames_ s; allocator_ := r |})
  end.

Definition allocator_free (p : ptr) (s : FrameManager) : FrameManager :=
  {| heap := heap s; frames_ := frames_ s; allocator_ := p :: allocator_ s |}.

(** [FrameManager::init(pool_num)]: a pool of [pool_num] unpinned frames
    at addresses [0 .. pool_num - 1] and an empty cache. *)
Definition init (pool_num : nat) : FrameManager :=
  {| heap := fun _ => {| pin_count := 0; page_num := 0 |};
     frames_ := []; allocator_ := seq 0 pool_num |}.

Definition frame_id (fd pn : Z) : FrameId :=
  {| fid_file_desc := fd; fid_page_num := pn |}.

(** [FrameManager::get_internal] (frame_manager.cpp lines 79-87). *)
Definition get_internal (id : FrameId) (s : FrameManager) : option ptr * FrameManager :=
  let '(r, c) := cache_get id (frames_ s) in
  let s1 := with_frames c s in
  match r with
  | Some p => (Some p, pin p s1)
  | None => (None, s1)
  end.

(** [FrameManager::alloc] (lines 24-42); [None] is a failed ASSERT. *)
Definition alloc (fd pn : Z) (s : FrameManager) : option (option ptr * FrameManager) :=
  let id := frame_id fd pn in
  let '(r, s1) := get_internal id s in
  match r with
  | Some p => Some (Some p, s1)
  | None =>
      match allocator_alloc s1 with
      | None => Some (None, s1)
      | Some (p, s2) =>
          if Nat.eqb (pin_count (heap s2 p)) 0 then
            let s3 := pin p (set_page_num p pn s2) in
            Some (Some p, with_frames (cache_put id p (frames_ s3)) s3)
          else None
      end
  end.

(** [FrameManager::get] (lines 44-49). *)
Definition get (fd pn : Z) (s : FrameManager) : option ptr * FrameManager :=
  get_internal (frame_id fd pn) s.

(** The [fetcher] lambda of [evict_frames] (lines 63-73) on the state
    (evicted, manager); [evict_action] sees the frame's address and data. *)
Definition fetcher (count : Z) (evict_action : ptr -> Frame -> RC)
    (a : Z * FrameManager) (x : FrameId * ptr) : bool * (Z * FrameManager) :=
  let '(evicted, s) := a in
  let '(id, p) := x in
  let '(evicted', s') :=
    if can_evict (heap s p) then
      if RC_beq (evict_action p (heap s p)) SUCCESS then
        (evicted + 1, allocator_free p (with_frames (cache_remove id (frames_ s)) s))
      else (evicted, s)
    else (evicted, s) in
  (evicted' <? count, (evicted', s')).

(** [FrameManager::evict_frames] (lines 56-77). *)
Definition evict_frames (count : Z) (evict_action : ptr -> Frame -> RC)
    (s : FrameManager) : Z * FrameManager :=
  cache_foreach (fetcher count evict_action) (frames_ s) (0, s).

(** [FrameManager::free_internal] (lines 117-129); [None] is a failed
    ASSERT (modelled from the spec: a violated assertion aborts). *)
Definition free_internal (id : FrameId) (frame : ptr) (s : FrameManager)
  : option (RC * FrameManager) :=
  let '(r, c) := cache_get id (frames_ s) in
  let s1 := with_frames c s in
  match r with
  | Some frame_source =>
      if Nat.eqb frame frame_source && Nat.eqb (pin_count (heap s1 frame)) 1 then
        let s2 := unpin frame s1 in
        Some (SUCCESS, allocator_free frame (with_frames (cache_remove id (frames_ s2)) s2))
      else None
  | None => None
  end.

(** [FrameManager::free] (lines 109-115). *)
Definition free (fd pn : Z) (frame : ptr) (s : FrameManager) : option (RC * FrameManager) :=
  free_internal (frame_id fd pn) frame s.

(** [FrameManager::cleanup] (frame_manager.cpp lines 15-22): [INTERNAL]
    while a frame is resident; otherwise the cache is destroyed. *)
Definition cleanup (s : FrameManager) : RC * FrameManager :=
  if (0 <? length (frames_ s))%nat then (INTERNAL, s)
  else (SUCCESS, with_frames [] s).

(** The [fetcher] lambda of [find_list] (lines 98-104) on the state
    (frames found so far, manager). *)
Definition find_fetcher (file_desc : Z) (a : list ptr * FrameManager)
    (x : FrameId * ptr) : bool * (list ptr * FrameManager) :=
  let '(frames, s) := a in
  let '(id, p) := x in
  if file_desc =? fid_file_desc id then (true, (frames ++ [p], pin p s))
  else (true, (frames, s)).

(** [FrameManager::find_list] (lines 93-107). *)
Definition find_list (file_desc : Z) (s : FrameManager) : list ptr * FrameManager :=
  cache_foreach (find_fetcher file_desc) (frames_ s) ([], s).

(** Sequences of public calls; [None] once an assertion has failed. *)
Inductive Op :=
| OpAlloc (fd pn : Z)
| OpGet (fd pn : Z)
| OpFree (fd pn : Z) (frame : ptr).

Definition exec_op (o : Op) (s : FrameManager) : option FrameManager :=
  match o with
  | OpAlloc fd pn => option_map snd (alloc fd pn s)
  | OpGet fd pn => Some (snd (get fd pn s))
  | OpFree fd pn fr => option_map snd (free fd pn fr s)
  end.

Fixpoint exec (ops : list Op) (s : FrameManager) : option FrameManager :=
  match ops with
  | [] => Some s
  | o :: r => match exec_op o s with None => None | Some s' => exec r s' end
  end.

(** Sequences of calls that also include [evict_frames] and the release
    of a pin by the frame's holder (modelled from the spec: a holder
    releases its pin with [Frame::unpin()], section 3). *)
Inductive Call :=
| CallOp (o : Op)
| CallEvict (count : Z) (evict_action : ptr -> Frame -> RC)
| CallUnpin (frame : ptr).

Definition exec_call (c : Call) (s : FrameManager) : option FrameManager :=
  match c with
  | CallOp o => exec_op o s
  | CallEvict count act => Some (snd (evict_frames count act s))
  | CallUnpin p => Some (unpin p s)
  end.

Fixpoint exec_calls (cs : list Call) (s : FrameManager) : option FrameManager :=
  match cs with
  | [] => Some s
  | c :: r => match exec_call c s with None => None | Some s' => exec_calls r s' end
  end.

(** The number of entries of [l] whose frame can be evicted. *)
Definition n_evictable (h : ptr -> Frame) (l : Cache) : nat :=
  length (filter (fun kv => can_evict (h (snd kv))) l).

(** The bookkeeping invariant: no frame is twice in the cache, twice in
    the free list, or in both; every frame is one of the [P] frames of the
    pool. *)
Definition pool_inv (P : nat) (s : FrameManager) : Prop :=
  NoDup (map snd (frames_ s)) /\ NoDup (allocator_ s) /\
  (forall x, In x (map snd (frames_ s)) -> ~ In x (allocator_ s)) /\
  (forall x, In x (map snd (frames_ s)) \/ In x (allocator_ s) -> (x < P)%nat).

(** A frame that eviction must keep (pinned, or its action fails), and
    the frame still being resident and not handed back to the allocator. *)
Definition kept (act : ptr -> Frame -> RC) (s0 : FrameManager) (p : ptr) : Prop :=
  (0 < pin_count (heap s0 p))%nat \/ act p (heap s0 p) <> SUCCESS.

Definition still_there (s0 : FrameManager) (k : FrameId) (p : ptr) (st : FrameManager)
  : Prop :=
  In (k, p) (frames_ st) /\ (In p (allocator_ st) -> In p (allocator_ s0)).

(** Concrete managers used in the examples: a pool of two frames where
    page (3, 7) was allocated and then unpinned by its holder, and the
    same with page (3, 8) allocated after it and still pinned. *)
Definition one_unpinned : FrameManager :=
  unpin 0%nat (match alloc 3 7 (init 2) with Some (_, s) => s | None => init 2 end).

Definition two_frames : FrameManager :=
  unpin 0%nat (match alloc 3 7 (init 2) with
           | Some (_, s) => match alloc 3 8 s with Some (_, s') => s' | None => s end
           | None => init 2
           end).

End Frames.

(* ================================================================== *)
(** * Proofs *)

Module RecoveryFacts.
Import Log Recovery.

Lemma next_keeps_entry (it : LogEntryIterator) :
  log_entry_ it <> None -> log_entry_ (snd (next it)) <> None.
Proof.
  intros H. unfold next.
  destruct (read HEADER_SIZE (log_file_ it)) as [[rc hb] f1].
  destruct (negb (rc_is_success rc)); [destruct (eof f1); exact H |].
  destruct (0 <? _); [| simpl; discriminate].
  destruct (read _ f1) as [[rc2 d] f2].
  destruct (negb (rc_is_success rc2)); [exact H | simpl; discriminate].
Qed.

(** Once an entry has been read, [valid()] stays true: the scan loop never
    exits normally. *)
Lemma recover_loop_never_done (fuel : nat) :
  forall it s s', log_entry_ it <> None -> recover_loop fuel it s <> LoopDone s'.
Proof.
  induction fuel as [| f IH]; intros it s s' H; simpl; [discriminate |].
  destruct (log_entry_ it) as [e |] eqn:E; [| contradiction].
  destruct (process_entry e s) as [s1 |]; [| discriminate].
  apply IH. apply next_keeps_entry. rewrite E. discriminate.
Qed.

(** [recover] returns normally only with [SUCCESS], and only when the very
    first [next] produced no entry. *)
Lemma recover_returned (fuel : nat) (d : list Z) (rc : RC) (t : TrxManager) :
  recover fuel d = Returned rc t ->
  rc = SUCCESS /\ log_entry_ (snd (next (init (open_file d)))) = None.
Proof.
  unfold recover. intros H.
  destruct (log_entry_ (snd (next (init (open_file d))))) eqn:E.
  - destruct (recover_loop fuel _ init_state) eqn:L; try discriminate.
    exfalso. eapply recover_loop_never_done; [| exact L]. rewrite E. discriminate.
  - destruct (recover_loop fuel _ init_state) eqn:L; try discriminate.
    destruct (rollback_all _ _); [| discriminate].
    inversion H. split; reflexivity.
Qed.



(** On an empty log, [recover] returns [SUCCESS] without a single call on
    the transaction manager. *)
Lemma recover_empty_log (fuel : nat) :
  recover (S fuel) [] = Returned SUCCESS empty_trx_manager.
Proof. reflexivity. Qed.

(** The entries of [clean_log] as the iterator reads them. *)
Example clean_log_entries :
  map (fun e => (log_type e, trx_id e)) (entries_of_file clean_log)
  = [(MTR_BEGIN, 1); (INSERT, 1); (MTR_COMMIT, 1)].
Proof. vm_compute. reflexivity. Qed.

(** C1 (torn tail).  On [torn_log] the iterator reports the torn payload,
    but the scan loop ignores the return code of [next] and [valid()]
    stays true: [recover] never reaches the rollback step and never
    returns, and the [MTR_BEGIN] entry before the torn one is processed
    again at every iteration ([create_trx(1)] three times in three
    iterations). *)
Theorem recover_torn_tail_reprocesses_forever :
  (forall fuel rc t, recover fuel torn_log <> Returned rc t) /\
  recover 3 torn_log
  = OutOfFuel {| trxs := [1; 1; 1];
                 calls := [CreateTrx 1; CreateTrx 1; CreateTrx 1] |}.
Proof.
  split.
  - intros fuel rc t H. apply recover_returned in H. destruct H as [_ H].
    vm_compute in H. discriminate.
  - vm_compute. reflexivity.
Qed.

(** C3 (recovery on a clean log).  On [clean_log] the three entries are
    dispatched as described (create, redo of the insert, redo of the
    commit), but the loop then processes the last entry again and again:
    [recover] never returns, so no rollback step is ever reached, and the
    commit is redone at every further iteration. *)
Theorem recover_clean_log_never_returns :
  (forall fuel rc t, recover fuel clean_log <> Returned rc t) /\
  (exists t, recover 5 clean_log = OutOfFuel t /\
     map call_summary (calls t)
     = [(0%nat, 1, 0); (1%nat, 1, INSERT); (1%nat, 1, MTR_COMMIT);
        (1%nat, 1, MTR_COMMIT); (1%nat, 1, MTR_COMMIT)]).
Proof.
  split.
  - intros fuel rc t H. apply recover_returned in H. destruct H as [_ H].
    vm_compute in H. discriminate.
  - eexists. split; [vm_compute; reflexivity | vm_compute; reflexivity].
Qed.

(** C9 (recover always returns SUCCESS).  On the one-entry log
    [MTR_BEGIN(1)], [recover] never returns at all. *)
Theorem recover_begin_only_never_returns :
  forall fuel rc t, recover fuel begin_only_log <> Returned rc t.
Proof.
  intros fuel rc t H. apply recover_returned in H. destruct H as [_ H].
  vm_compute in H. discriminate.
Qed.

End RecoveryFacts.

(** ** Null dereferences of [find_trx] results during recovery *)

Module RecoveryDeref.
Import Log Recovery.

(** Case analysis on every test [next] makes. *)
Ltac next_cases :=
  unfold next, read; simpl;
  repeat match goal with
  | |- context [if ?c then _ else _] =>
      let E := fresh "E" in destruct c eqn:E; simpl
  end;
  repeat match goal with
  | H : (_ <=? _)%nat = true |- _ => apply Nat.leb_le in H
  | H : (_ <=? _)%nat = false |- _ => apply Nat.leb_gt in H
  end;
  unfold HEADER_SIZE in *.

Lemma next_contents (it : LogEntryIterator) :
  contents (log_file_ (snd (next it))) = contents (log_file_ it).
Proof. next_cases; reflexivity. Qed.

Lemma next_wf (it : LogEntryIterator) : wf it -> wf (snd (next it)).
Proof. unfold wf. next_cases; lia. Qed.

(** A failing [next] leaves the iterator dead and its entry untouched. *)
Lemma next_fail (it : LogEntryIterator) :
  rc_is_success (fst (next it)) = false ->
  dead (snd (next it)) /\ log_entry_ (snd (next it)) = log_entry_ it.
Proof. unfold dead. next_cases; auto; discriminate. Qed.

(** On a dead iterator [next] fails. *)
Lemma dead_next (it : LogEntryIterator) :
  dead it -> rc_is_success (fst (next it)) = false.
Proof. unfold dead. intros D. next_cases; auto; lia. Qed.

(** A successful [next] produces an entry and consumes at least a header. *)
Lemma next_success (it : LogEntryIterator) :
  wf it -> rc_is_success (fst (next it)) = true ->
  log_entry_ (snd (next it)) <> None /\
  (remaining (snd (next it)) + HEADER_SIZE <= remaining it)%nat.
Proof.
  unfold wf, remaining. intros W. next_cases; try discriminate;
    intros _; split; try discriminate; unfold HEADER_SIZE; lia.
Qed.

Lemma log_entries_enough (n : nat) : forall m it,
  wf it -> (remaining it < n)%nat -> (remaining it < m)%nat ->
  log_entries n it = log_entries m it.
Proof.
  induction n as [| n IH]; intros m it W Hn Hm; [lia |].
  destruct m as [| m]; [lia |].
  pose proof (next_success it W) as NS. pose proof (next_wf it W) as NW.
  simpl. destruct (next it) as [rc it'] eqn:N. simpl in NS, NW.
  destruct (rc_is_success rc) eqn:R; [| reflexivity].
  destruct (NS eq_refl) as [_ P]. unfold HEADER_SIZE in P.
  destruct (log_entry_ it'); [| reflexivity].
  f_equal. apply IH; [exact NW | lia | lia].
Qed.

Lemma entries_unfold (it : LogEntryIterator) :
  wf it ->
  entries it =
  let '(rc, it') := next it in
  if rc_is_success rc then
    match log_entry_ it' with Some e => e :: entries it' | None => [] end
  else [].
Proof.
  intros W. unfold entries at 1.
  pose proof (next_success it W) as NS. pose proof (next_wf it W) as NW.
  simpl. destruct (next it) as [rc it'] eqn:N. simpl in NS, NW.
  destruct (rc_is_success rc) eqn:R; [| reflexivity].
  destruct (NS eq_refl) as [_ P]. unfold HEADER_SIZE in P.
  destruct (log_entry_ it'); [| reflexivity].
  f_equal. unfold entries. apply log_entries_enough; [exact NW | lia | lia].
Qed.

Lemma dead_entries (it : LogEntryIterator) : dead it -> entries it = [].
Proof.
  intros D. unfold entries. simpl.
  pose proof (dead_next it D) as F.
  destruct (next it) as [rc it']. simpl in F. rewrite F. reflexivity.
Qed.

Lemma existsb_in (x : Z) (l : list Z) : existsb (Z.eqb x) l = true <-> In x l.
Proof.
  rewrite existsb_exists. split.
  - intros [y [Hy E]]. apply Z.eqb_eq in E. subst. exact Hy.
  - intros H. exists x. split; [exact H | apply Z.eqb_refl].
Qed.

Lemma begun_before_equiv (l : list LogEntry) : forall B1 B2,
  (forall x, In x B1 <-> In x B2) -> begun_before B1 l = begun_before B2 l.
Proof.
  induction l as [| e r IH]; intros B1 B2 H; simpl; [reflexivity |].
  destruct (log_type e =? MTR_BEGIN).
  - apply IH. intros x. simpl. rewrite H. tauto.
  - destruct (log_type e =? ERROR); [apply IH; exact H |].
    f_equal; [| apply IH; exact H].
    destruct (existsb (Z.eqb (trx_id e)) B1) eqn:E1;
    destruct (existsb (Z.eqb (trx_id e)) B2) eqn:E2; try reflexivity.
    + apply existsb_in in E1. apply H in E1. apply existsb_in in E1. congruence.
    + apply existsb_in in E2. apply H in E2. apply existsb_in in E2. congruence.
Qed.

(** Case analysis on the type of an entry, as [process_entry] and
    [begun_before] test it. *)
Ltac entry_type_cases e :=
  destruct (Z.eqb_spec (log_type e) MTR_BEGIN) as [TB | TB];
  destruct (Z.eqb_spec (log_type e) MTR_COMMIT) as [TC | TC];
  destruct (Z.eqb_spec (log_type e) ERROR) as [TE | TE];
  try (exfalso; unfold MTR_BEGIN, MTR_COMMIT, ERROR in *; lia).

Lemma process_step (e : LogEntry) (s s1 : RecState) (l : list LogEntry) :
  process_entry e s = Some s1 ->
  begun_before (trxs (tm s)) (e :: l) = begun_before (trxs (tm s1)) l.
Proof.
  unfold process_entry, find_trx. simpl.
  entry_type_cases e; intros H.
  - inversion H; subst; simpl. apply begun_before_equiv.
    intros x. rewrite in_app_iff. simpl. tauto.
  - destruct (existsb _ _) eqn:E; inversion H; subst; simpl. reflexivity.
  - inversion H; subst. reflexivity.
  - destruct (existsb _ _) eqn:E; inversion H; subst; simpl. reflexivity.
Qed.

Lemma process_none (e : LogEntry) (s : RecState) (l : list LogEntry) :
  process_entry e s = None -> begun_before (trxs (tm s)) (e :: l) = false.
Proof.
  unfold process_entry, find_trx. simpl.
  entry_type_cases e; intros H; try discriminate.
  - destruct (existsb _ _) eqn:E; [discriminate | reflexivity].
  - destruct (existsb _ _) eqn:E; [discriminate | reflexivity].
Qed.

Lemma process_again (e : LogEntry) (s s1 : RecState) :
  process_entry e s = Some s1 -> begun_before (trxs (tm s1)) [e] = true.
Proof.
  unfold process_entry, find_trx. simpl.
  entry_type_cases e; intros H.
  - reflexivity.
  - destruct (existsb _ _) eqn:E; inversion H; subst; simpl. rewrite E. reflexivity.
  - reflexivity.
  - destruct (existsb _ _) eqn:E; inversion H; subst; simpl. rewrite E. reflexivity.
Qed.

(** While every entry still to be processed (the current one included)
    names a begun transaction, the scan loop dereferences no null
    pointer, however long it runs. *)
Lemma loop_no_deref (fuel : nat) : forall it s e s',
  wf it -> log_entry_ it = Some e ->
  begun_before (trxs (tm s)) (e :: entries it) = true ->
  recover_loop fuel it s <> LoopNullDeref s'.
Proof.
  induction fuel as [| f IH]; intros it s e s' W E B; simpl; [discriminate |].
  rewrite E.
  destruct (process_entry e s) as [s1 |] eqn:P;
    [| rewrite (process_none e s (entries it) P) in B; discriminate].
  rewrite (process_step e s s1 _ P) in B.
  rewrite (entries_unfold it W) in B.
  pose proof (next_wf it W) as NW.
  pose proof (next_fail it) as NF.
  pose proof (next_success it W) as NS.
  destruct (next it) as [rc it'] eqn:N; simpl in *.
  destruct (rc_is_success rc) eqn:R.
  - destruct (NS eq_refl) as [NE _].
    destruct (log_entry_ it') as [e' |] eqn:E'; [| contradiction].
    exact (IH it' s1 e' s' NW E' B).
  - destruct (NF eq_refl) as [D E'].
    apply (IH it' s1 e s' NW); [rewrite E'; exact E |].
    rewrite (dead_entries it' D). exact (process_again e s s1 P).
Qed.

(** Conversely, the first entry naming a transaction that was never begun
    is reached and dereferences null. *)
Lemma loop_deref (l : list LogEntry) : forall it s e,
  wf it -> log_entry_ it = Some e -> entries it = l ->
  begun_before (trxs (tm s)) (e :: l) = false ->
  exists fuel s', recover_loop fuel it s = LoopNullDeref s'.
Proof.
  induction l as [| e'' l IH]; intros it s e W E L B;
    (destruct (process_entry e s) as [s1 |] eqn:P;
     [| exists 1%nat, s; simpl; rewrite E, P; reflexivity]);
    rewrite (process_step e s s1 _ P) in B; [discriminate |].
  rewrite (entries_unfold it W) in L.
  pose proof (next_wf it W) as NW.
  destruct (next it) as [rc it'] eqn:N; simpl in *.
  destruct (rc_is_success rc); [| discriminate].
  destruct (log_entry_ it') as [e' |] eqn:E'; [| discriminate].
  injection L as -> L.
  destruct (IH it' s1 e'' NW E' L B) as [fuel [s' H]].
  exists (S fuel), s'. simpl. rewrite E, P, N. exact H.
Qed.

(** C10 (null dereference of [find_trx]).  [recover] dereferences a null
    [find_trx] result (for some number of iterations) exactly when the
    log has an [MTR_COMMIT] or default-branch entry whose transaction id
    was not introduced by an earlier [MTR_BEGIN] entry of the same log;
    under that precondition the null dereference is unreachable. *)
Theorem recover_null_deref_iff (d : list Z) :
  (exists fuel t, recover fuel d = NullDeref t) <->
  begun_before [] (entries_of_file d) = false.
Proof.
  unfold recover, entries_of_file. cbv zeta.
  set (it0 := init (open_file d)).
  assert (W0 : wf it0) by (unfold wf; simpl; lia).
  rewrite (entries_unfold it0 W0).
  pose proof (next_wf it0 W0) as NW.
  pose proof (next_fail it0) as NF.
  pose proof (next_success it0 W0) as NS.
  destruct (next it0) as [rc it1] eqn:N; simpl in *.
  destruct (rc_is_success rc) eqn:R.
  - destruct (NS eq_refl) as [NE _].
    destruct (log_entry_ it1) as [e |] eqn:E; [| contradiction].
    split.
    + intros [fuel [t H]].
      destruct (begun_before [] (e :: entries it1)) eqn:B; [| reflexivity].
      exfalso.
      destruct (recover_loop fuel it1 init_state) as [s | s | s] eqn:L.
      * eapply RecoveryFacts.recover_loop_never_done; [| exact L].
        rewrite E. discriminate.
      * exact (loop_no_deref fuel it1 init_state e s NW E B L).
      * discriminate.
    + intros B.
      destruct (loop_deref _ it1 init_state e NW E eq_refl B) as [fuel [s' H]].
      exists fuel, (tm s'). rewrite H. reflexivity.
  - destruct (NF eq_refl) as [_ E]. simpl in E.
    split; [| discriminate].
    intros [fuel [t H]]. destruct fuel as [| f]; simpl in H; [discriminate |].
    rewrite E in H. simpl in H. discriminate.
Qed.

(** The precondition holds on a clean log: recovery of [clean_log] never
    dereferences null. *)
Example clean_log_begun : begun_before [] (entries_of_file clean_log) = true.
Proof. vm_compute. reflexivity. Qed.

(** A log whose insert names a transaction never begun. *)
Example orphan_insert_deref :
  recover 1 insert_1 = NullDeref empty_trx_manager.
Proof. vm_compute. reflexivity. Qed.

End RecoveryDeref.

Module FrameFacts.
Import Frames.

Lemma frame_id_eqb_eq (a b : FrameId) : frame_id_eqb a b = true <-> a = b.
Proof.
  destruct a as [fa pa], b as [fb pb]. unfold frame_id_eqb. simpl.
  rewrite andb_true_iff, !Z.eqb_eq. split.
  - intros [-> ->]. reflexivity.
  - intros E. inversion E. split; reflexivity.
Qed.

Lemma frame_id_eqb_refl (a : FrameId) : frame_id_eqb a a = true.
Proof. apply frame_id_eqb_eq. reflexivity. Qed.

Lemma lookup_app (k : FrameId) (c1 c2 : Cache) :
  cache_lookup k (c1 ++ c2) =
  match cache_lookup k c1 with Some v => Some v | None => cache_lookup k c2 end.
Proof.
  induction c1 as [| [k' v'] c1 IH]; simpl; [reflexivity |].
  destruct (frame_id_eqb k' k); [reflexivity | exact IH].
Qed.

Lemma lookup_remove (k : FrameId) (c : Cache) : cache_lookup k (cache_remove k c) = None.
Proof.
  induction c as [| [k' v'] c IH]; simpl; [reflexivity |].
  destruct (frame_id_eqb k' k) eqn:E; simpl; [exact IH |].
  rewrite E. exact IH.
Qed.

Lemma lookup_put (k : FrameId) (v : ptr) (c : Cache) :
  cache_lookup k (cache_put k v c) = Some v.
Proof.
  unfold cache_put. rewrite lookup_app, lookup_remove. simpl.
  rewrite frame_id_eqb_refl. reflexivity.
Qed.

Lemma lookup_in (k : FrameId) (v : ptr) (c : Cache) :
  cache_lookup k c = Some v -> In (k, v) c.
Proof.
  induction c as [| [k' v'] c IH]; simpl; [discriminate |].
  destruct (frame_id_eqb k' k) eqn:E.
  - intros H. inversion H; subst. apply frame_id_eqb_eq in E. subst. left. reflexivity.
  - intros H. right. exact (IH H).
Qed.

Lemma get_found (k : FrameId) (v : ptr) (c : Cache) :
  cache_lookup k c = Some v -> cache_get k c = (Some v, cache_put k v c).
Proof. intros H. unfold cache_get. rewrite H. reflexivity. Qed.

(** [alloc] leaves the frame it returns registered under its FrameId. *)
Lemma alloc_resident (fd pn : Z) (s s1 : FrameManager) (f : ptr) :
  alloc fd pn s = Some (Some f, s1) ->
  cache_lookup (frame_id fd pn) (frames_ s1) = Some f.
Proof.
  unfold alloc, get_internal, cache_get.
  destruct (cache_lookup (frame_id fd pn) (frames_ s)) as [p |] eqn:L; simpl.
  - intros H. inversion H; subst. simpl. apply lookup_put.
  - unfold allocator_alloc. simpl.
    destruct (allocator_ s) as [| p r]; [discriminate |].
    destruct (Nat.eqb _ 0); [| discriminate].
    intros H. inversion H; subst. simpl. apply lookup_put.
Qed.

(** C4 (alloc then get).  After [alloc(fd, p)] returns a frame [f],
    [get(fd, p)] returns the same [f] with its pin count one higher than
    after the alloc; and on a FrameId that is not resident [get] returns
    null and leaves the whole manager (cache, frames, allocator)
    unchanged. *)
Theorem alloc_then_get :
  (forall fd pn s s1 f,
     alloc fd pn s = Some (Some f, s1) ->
     fst (get fd pn s1) = Some f /\
     pin_count (heap (snd (get fd pn s1)) f) = S (pin_count (heap s1 f))) /\
  (forall fd pn s,
     cache_lookup (frame_id fd pn) (frames_ s) = None -> get fd pn s = (None, s)).
Proof.
  split.
  - intros fd pn s s1 f H.
    pose proof (alloc_resident fd pn s s1 f H) as L.
    unfold get, get_internal. rewrite (get_found _ _ _ L). simpl.
    rewrite Nat.eqb_refl. split; reflexivity.
  - intros fd pn s L. unfold get, get_internal, cache_get. rewrite L.
    destruct s. reflexivity.
Qed.

Lemma alloc_then_get_witness :
  exists s1, alloc 3 7 (init 2%nat) = Some (Some 0%nat, s1) /\
    fst (get 3 7 s1) = Some 0%nat /\
    pin_count (heap (snd (get 3 7 s1)) 0%nat) = 2%nat.
Proof.
  eexists. split; [reflexivity |].
  destruct (proj1 alloc_then_get 3 7 (init 2%nat) _ 0%nat eq_refl) as [H1 H2].
  split; [exact H1 | rewrite H2; reflexivity].
Defined.

(** *** The resident set stays within the pool *)

Lemma in_snd_remove (x : ptr) (k : FrameId) (c : Cache) :
  In x (map snd (cache_remove k c)) -> In x (map snd c).
Proof.
  intros H. apply in_map_iff in H. destruct H as [kv [E H]].
  apply filter_In in H. apply in_map_iff. exists kv. tauto.
Qed.

Lemma nodup_snd_remove (k : FrameId) (c : Cache) :
  NoDup (map snd c) -> NoDup (map snd (cache_remove k c)).
Proof.
  induction c as [| [k' v'] c IH]; simpl; intros N; [constructor |].
  inversion N as [| ? ? Hnin N']; subst.
  destruct (negb (frame_id_eqb k' k)); simpl; [| exact (IH N')].
  constructor; [| exact (IH N')].
  intros H. apply Hnin. exact (in_snd_remove _ _ _ H).
Qed.

Lemma snd_unique (c : Cache) (k1 k2 : FrameId) (v : ptr) :
  NoDup (map snd c) -> In (k1, v) c -> In (k2, v) c -> k1 = k2.
Proof.
  induction c as [| [k w] c IH]; simpl; intros N H1 H2; [contradiction |].
  inversion N as [| ? ? Hnin N']; subst.
  destruct H1 as [E1 | H1]; destruct H2 as [E2 | H2].
  - inversion E1; inversion E2; subst. reflexivity.
  - inversion E1; subst. exfalso. apply Hnin. apply in_map_iff.
    exists (k2, v). split; [reflexivity | exact H2].
  - inversion E2; subst. exfalso. apply Hnin. apply in_map_iff.
    exists (k1, v). split; [reflexivity | exact H1].
  - exact (IH N' H1 H2).
Qed.

(** The frame found under a key is not left in the cache by removing the
    key. *)
Lemma found_not_in_remove (k : FrameId) (v : ptr) (c : Cache) :
  NoDup (map snd c) -> cache_lookup k c = Some v ->
  ~ In v (map snd (cache_remove k c)).
Proof.
  intros N L H. apply in_map_iff in H. destruct H as [[k' v'] [E H]].
  simpl in E. subst v'. apply filter_In in H. destruct H as [H F].
  apply lookup_in in L.
  rewrite (snd_unique c k' k v N H L) in F. simpl in F.
  rewrite frame_id_eqb_refl in F. discriminate.
Qed.

Lemma pool_inv_init (P : nat) : pool_inv P (init P).
Proof.
  unfold pool_inv, init. simpl. split; [constructor |].
  split; [apply seq_NoDup |]. split; [tauto |].
  intros x [[] | H]. apply in_seq in H. lia.
Qed.

Lemma pool_inv_length (P : nat) (s : FrameManager) :
  pool_inv P s -> (length (frames_ s) <= P)%nat.
Proof.
  intros [N1 [N2 [D B]]].
  assert (ND : NoDup (map snd (frames_ s) ++ allocator_ s))
    by (apply NoDup_app; assumption).
  assert (I : incl (map snd (frames_ s) ++ allocator_ s) (seq 0 P)).
  { intros x Hx. apply in_seq. apply in_app_or in Hx.
    specialize (B x Hx). lia. }
  pose proof (NoDup_incl_length ND I) as L.
  rewrite length_app, length_map, length_seq in L. lia.
Qed.

(** Moving the found entry to the back keeps the invariant. *)
Lemma pool_inv_get_found (P : nat) (k : FrameId) (v : ptr) (s : FrameManager) :
  pool_inv P s -> cache_lookup k (frames_ s) = Some v ->
  pool_inv P (with_frames (cache_put k v (frames_ s)) s).
Proof.
  intros [N1 [N2 [D B]]] L. unfold pool_inv, with_frames, cache_put. simpl.
  rewrite map_app. simpl.
  assert (Hv : In v (map snd (frames_ s))).
  { apply in_map_iff. exists (k, v). split; [reflexivity | exact (lookup_in _ _ _ L)]. }
  split.
  - apply NoDup_app; [exact (nodup_snd_remove k _ N1) | constructor; [tauto | constructor] |].
    intros x Hx [E | []]. subst x. exact (found_not_in_remove k v _ N1 L Hx).
  - split; [exact N2 |]. split.
    + intros x Hx. apply in_app_or in Hx. destruct Hx as [Hx | [E | []]].
      * exact (D x (in_snd_remove _ _ _ Hx)).
      * subst x. exact (D v Hv).
    + intros x [Hx | Hx]; apply B; [| right; exact Hx].
      apply in_app_or in Hx. destruct Hx as [Hx | [E | []]].
      * left. exact (in_snd_remove _ _ _ Hx).
      * subst x. left. exact Hv.
Qed.

Lemma pool_inv_get_internal (P : nat) (k : FrameId) (s : FrameManager) :
  pool_inv P s -> pool_inv P (snd (get_internal k s)).
Proof.
  intros I. unfold get_internal, cache_get.
  destruct (cache_lookup k (frames_ s)) as [v |] eqn:L; simpl.
  - exact (pool_inv_get_found P k v s I L).
  - destruct s. exact I.
Qed.

Lemma pool_inv_lists (P : nat) (s s' : FrameManager) :
  frames_ s' = frames_ s -> allocator_ s' = allocator_ s ->
  pool_inv P s -> pool_inv P s'.
Proof. unfold pool_inv. intros -> ->. exact (fun H => H). Qed.

(** Registering a frame taken from the head of the free list. *)
Lemma pool_inv_put_new (P : nat) (k : FrameId) (p : ptr) (r : list ptr)
    (s s' : FrameManager) :
  pool_inv P s -> allocator_ s = p :: r ->
  frames_ s' = cache_put k p (frames_ s) -> allocator_ s' = r ->
  pool_inv P s'.
Proof.
  intros [N1 [N2 [D B]]] A F R. unfold pool_inv. rewrite F, R. rewrite A in N2, D, B.
  inversion N2 as [| ? ? Hp Nr]; subst.
  assert (Pc : ~ In p (map snd (frames_ s))) by (intros H; exact (D p H (or_introl eq_refl))).
  unfold cache_put. rewrite map_app. simpl. split.
  - apply NoDup_app; [exact (nodup_snd_remove k _ N1) | constructor; [tauto | constructor] |].
    intros x Hx [E | []]. subst x. exact (Pc (in_snd_remove _ _ _ Hx)).
  - split; [exact Nr |]. split.
    + intros x Hx. apply in_app_or in Hx. destruct Hx as [Hx | [E | []]].
      * intros Hr. exact (D x (in_snd_remove _ _ _ Hx) (or_intror Hr)).
      * subst x. exact Hp.
    + intros x [Hx | Hx]; apply B.
      * apply in_app_or in Hx. destruct Hx as [Hx | [E | []]].
        -- left. exact (in_snd_remove _ _ _ Hx).
        -- subst x. right. left. reflexivity.
      * right. right. exact Hx.
Qed.

Lemma remove_remove (k : FrameId) (c : Cache) :
  cache_remove k (cache_remove k c) = cache_remove k c.
Proof.
  induction c as [| [k' v'] c IH]; simpl; [reflexivity |].
  destruct (frame_id_eqb k' k) eqn:E; simpl; [exact IH |].
  rewrite E. simpl. f_equal. exact IH.
Qed.

Lemma remove_put (k : FrameId) (v : ptr) (c : Cache) :
  cache_remove k (cache_put k v c) = cache_remove k c.
Proof.
  unfold cache_put. unfold cache_remove at 1. rewrite filter_app. simpl.
  rewrite frame_id_eqb_refl. simpl. rewrite app_nil_r. apply remove_remove.
Qed.

(** Dropping a key and returning its frame to the free list. *)
Lemma pool_inv_release (P : nat) (k : FrameId) (q : ptr) (s s' : FrameManager) :
  pool_inv P s -> cache_lookup k (frames_ s) = Some q ->
  frames_ s' = cache_remove k (frames_ s) -> allocator_ s' = q :: allocator_ s ->
  pool_inv P s'.
Proof.
  intros [N1 [N2 [D B]]] L F R. unfold pool_inv. rewrite F, R.
  assert (Hq : In q (map snd (frames_ s))).
  { apply in_map_iff. exists (k, q). split; [reflexivity | exact (lookup_in _ _ _ L)]. }
  split; [exact (nodup_snd_remove k _ N1) |].
  split; [constructor; [exact (D q Hq) | exact N2] |]. split.
  - intros x Hx [E | Hr].
    + subst x. exact (found_not_in_remove k q _ N1 L Hx).
    + exact (D x (in_snd_remove _ _ _ Hx) Hr).
  - intros x [Hx | [E | Hx]]; apply B.
    + left. exact (in_snd_remove _ _ _ Hx).
    + subst x. left. exact Hq.
    + right. exact Hx.
Qed.

Lemma pool_inv_alloc (P : nat) (fd pn : Z) (s : FrameManager) r s' :
  pool_inv P s -> alloc fd pn s = Some (r, s') -> pool_inv P s'.
Proof.
  intros I. unfold alloc.
  pose proof (pool_inv_get_internal P (frame_id fd pn) s I) as I1.
  destruct (get_internal (frame_id fd pn) s) as [[p |] s1] eqn:G; simpl in I1.
  - intros H. inversion H; subst. exact I1.
  - unfold allocator_alloc.
    destruct (allocator_ s1) as [| p rest] eqn:A.
    + intros H. inversion H; subst. exact I1.
    + destruct (Nat.eqb _ 0); [| discriminate].
      intros H. inversion H; subst.
      apply (pool_inv_put_new P (frame_id fd pn) p rest s1); try reflexivity; auto.
Qed.

Lemma pool_inv_free (P : nat) (fd pn : Z) (fr : ptr) (s : FrameManager) rc s' :
  pool_inv P s -> free fd pn fr s = Some (rc, s') -> pool_inv P s'.
Proof.
  intros I. unfold free, free_internal, cache_get.
  destruct (cache_lookup (frame_id fd pn) (frames_ s)) as [q |] eqn:L; [| discriminate].
  destruct (Nat.eqb fr q && _) eqn:C; [| discriminate].
  apply andb_true_iff in C. destruct C as [C _]. apply Nat.eqb_eq in C. subst q.
  intros H. inversion H; subst. clear H.
  apply (pool_inv_release P (frame_id fd pn) fr s); auto.
  simpl. apply remove_put.
Qed.

Lemma pool_inv_exec (P : nat) (ops : list Op) : forall s s',
  pool_inv P s -> exec ops s = Some s' -> pool_inv P s'.
Proof.
  induction ops as [| o r IH]; simpl; intros s s' I H.
  - inversion H; subst. exact I.
  - destruct (exec_op o s) as [s1 |] eqn:E; [| discriminate].
    apply (IH s1 s'); [| exact H].
    destruct o as [fd pn | fd pn | fd pn fr]; simpl in E.
    + destruct (alloc fd pn s) as [[r1 s2] |] eqn:A; inversion E; subst.
      exact (pool_inv_alloc P fd pn s r1 s1 I A).
    + inversion E; subst. exact (pool_inv_get_internal P _ s I).
    + destruct (free fd pn fr s) as [[r1 s2] |] eqn:F; inversion E; subst.
      exact (pool_inv_free P fd pn fr s r1 s1 I F).
Qed.

(** C5 (bounded resident set).  After any sequence of [alloc], [get] and
    [free] calls on a manager initialised with a pool of [P] frames, the
    cache holds at most [P] entries; and [alloc] on a non-resident
    FrameId with an exhausted allocator returns null and changes
    nothing. *)
Theorem resident_set_within_pool :
  (forall P ops s, exec ops (init P) = Some s -> (length (frames_ s) <= P)%nat) /\
  (forall fd pn s,
     allocator_ s = [] -> cache_lookup (frame_id fd pn) (frames_ s) = None ->
     alloc fd pn s = Some (None, s)).
Proof.
  split.
  - intros P ops s H. apply pool_inv_length.
    exact (pool_inv_exec P ops (init P) s (pool_inv_init P) H).
  - intros fd pn s A L. unfold alloc, get_internal, cache_get. rewrite L.
    unfold allocator_alloc. simpl. rewrite A. destruct s. reflexivity.
Qed.

Lemma resident_set_within_pool_witness :
  exists s, exec [OpAlloc 1 1; OpAlloc 1 2; OpAlloc 1 3; OpGet 1 1] (init 2%nat) = Some s /\
    (length (frames_ s) <= 2)%nat /\
    alloc 1 3 s = Some (None, s).
Proof.
  eexists. split; [reflexivity |]. split.
  - apply (proj1 resident_set_within_pool 2%nat [OpAlloc 1 1; OpAlloc 1 2; OpAlloc 1 3; OpGet 1 1]).
    reflexivity.
  - apply (proj2 resident_set_within_pool); reflexivity.
Defined.

(** *** [free] *)

(** C7 (free contract).  When the given frame is the resident entry of
    (fd, p) and its pin count is 1, [free] returns [SUCCESS], drops the
    entry from the cache, unpins the frame and returns it to the
    allocator; in every other case (not resident, another frame, pin
    count other than 1) the assertion of [free_internal] fails and the
    call does not return. *)
Theorem free_contract (fd pn : Z) (fr : ptr) (s : FrameManager) :
  (cache_lookup (frame_id fd pn) (frames_ s) = Some fr /\ pin_count (heap s fr) = 1%nat ->
   exists s', free fd pn fr s = Some (SUCCESS, s') /\
     frames_ s' = cache_remove (frame_id fd pn) (frames_ s) /\
     allocator_ s' = fr :: allocator_ s /\
     pin_count (heap s' fr) = 0%nat) /\
  (free fd pn fr s = None <->
   ~ (cache_lookup (frame_id fd pn) (frames_ s) = Some fr /\ pin_count (heap s fr) = 1%nat)).
Proof.
  unfold free, free_internal, cache_get.
  destruct (cache_lookup (frame_id fd pn) (frames_ s)) as [q |] eqn:L.
  - simpl. destruct (Nat.eqb_spec fr q) as [E | E];
      destruct (Nat.eqb_spec (pin_count (heap s fr)) 1) as [Pn | Pn]; simpl.
    + subst q. split.
      * intros _. eexists. split; [reflexivity |]. simpl.
        rewrite remove_put, Nat.eqb_refl, Pn. split; [| split]; reflexivity.
      * split; [discriminate | intros H; exfalso; apply H; split; [reflexivity | exact Pn]].
    + split; [intros [_ H]; congruence |].
      split; [intros _ [_ H]; congruence | reflexivity].
    + split; [intros [H _]; congruence |].
      split; [intros _ [H _]; congruence | reflexivity].
    + split; [intros [H _]; congruence |].
      split; [intros _ [H _]; congruence | reflexivity].
  - split; [intros [H _]; discriminate |].
    split; [intros _ [H _]; discriminate | reflexivity].
Qed.

Lemma free_contract_witness :
  exists s',
    free 3 7 0%nat (match alloc 3 7 (init 2%nat) with Some (_, s) => s | None => init 0 end)
    = Some (SUCCESS, s') /\ frames_ s' = [] /\ allocator_ s' = [0%nat; 1%nat] /\
    free 3 8 0%nat (match alloc 3 7 (init 2%nat) with Some (_, s) => s | None => init 0 end)
    = None.
Proof.
  destruct (proj1 (free_contract 3 7 0%nat
                     (match alloc 3 7 (init 2%nat) with Some (_, s) => s | None => init 0 end))
              (conj eq_refl eq_refl)) as [s' [H1 [H2 [H3 _]]]].
  exists s'. split; [exact H1 |]. rewrite H2, H3. split; [reflexivity |]. split; [reflexivity |].
  apply (proj2 (proj2 (free_contract 3 8 0%nat _))).
  intros [H _]. discriminate H.
Defined.

(** *** [evict_frames] *)

(** C2 (evict count).  [evict_frames(0, always SUCCESS)] on a manager
    whose only resident frame is unpinned evicts that frame and returns
    1: the lambda tests [evicted < count] only after it has handled the
    frame it visits. *)
Theorem evict_zero_evicts_one :
  fst (evict_frames 0 (fun _ _ => SUCCESS) one_unpinned) = 1 /\
  frames_ (snd (evict_frames 0 (fun _ _ => SUCCESS) one_unpinned)) = [] /\
  allocator_ (snd (evict_frames 0 (fun _ _ => SUCCESS) one_unpinned)) = [0%nat; 1%nat] /\
  frames_ one_unpinned = [(frame_id 3 7, 0%nat)] /\
  pin_count (heap one_unpinned 0%nat) = 0%nat.
Proof. vm_compute. repeat split. Qed.

(** The visitor never touches the frames' data. *)
Lemma fetcher_heap count act a x :
  heap (snd (snd (fetcher count act a x))) = heap (snd a).
Proof.
  destruct a as [ev st], x as [k p]. unfold fetcher.
  destruct (can_evict (heap st p)); [destruct (RC_beq _ _) |]; reflexivity.
Qed.

Lemma foreach_heap count act (l : Cache) : forall a,
  heap (snd (cache_foreach (fetcher count act) l a)) = heap (snd a).
Proof.
  induction l as [| x l IH]; intros a; simpl; [reflexivity |].
  pose proof (fetcher_heap count act a x) as H.
  destruct (fetcher count act a x) as [b a'].
  destruct b; simpl in *; [rewrite IH |]; exact H.
Qed.

Lemma fst_unique (c : Cache) (k : FrameId) (p1 p2 : ptr) :
  NoDup (map fst c) -> In (k, p1) c -> In (k, p2) c -> p1 = p2.
Proof.
  induction c as [| [k' w] c IH]; simpl; intros N H1 H2; [contradiction |].
  inversion N as [| ? ? Hnin N']; subst.
  destruct H1 as [E1 | H1]; destruct H2 as [E2 | H2].
  - inversion E1; inversion E2; subst. reflexivity.
  - inversion E1; subst. exfalso. apply Hnin. apply in_map_iff.
    exists (k, p2). split; [reflexivity | exact H2].
  - inversion E2; subst. exfalso. apply Hnin. apply in_map_iff.
    exists (k, p1). split; [reflexivity | exact H1].
  - exact (IH N' H1 H2).
Qed.

Section Evict.
Variable count : Z.
Variable act : ptr -> Frame -> RC.
Variable s0 : FrameManager.
Hypothesis keys_unique : NoDup (map fst (frames_ s0)).

Lemma foreach_keeps (k : FrameId) (p : ptr) (l : Cache) :
  In (k, p) (frames_ s0) -> kept act s0 p -> incl l (frames_ s0) ->
  forall ev st, heap st = heap s0 -> still_there s0 k p st ->
  still_there s0 k p (snd (cache_foreach (fetcher count act) l (ev, st))).
Proof.
  intros Hin K. induction l as [| [k' p'] l IH]; intros Inc ev st Hh St; simpl; [exact St |].
  assert (Hin' : In (k', p') (frames_ s0)) by (apply Inc; left; reflexivity).
  assert (Inc' : incl l (frames_ s0)) by (intros y Hy; apply Inc; right; exact Hy).
  unfold fetcher.
  assert (Step : still_there s0 k p
    (snd (if can_evict (heap st p') then
            if RC_beq (act p' (heap st p')) SUCCESS then
              (ev + 1, allocator_free p' (with_frames (cache_remove k' (frames_ st)) st))
            else (ev, st)
          else (ev, st))) /\
    heap (snd (if can_evict (heap st p') then
            if RC_beq (act p' (heap st p')) SUCCESS then
              (ev + 1, allocator_free p' (with_frames (cache_remove k' (frames_ st)) st))
            else (ev, st)
          else (ev, st))) = heap s0).
  { destruct (can_evict (heap st p')) eqn:C; [| split; assumption].
    destruct (RC_beq (act p' (heap st p')) SUCCESS) eqn:R; [| split; assumption].
    simpl. split; [| exact Hh].
    apply internal_RC_dec_bl in R. unfold can_evict in C. apply Nat.eqb_eq in C.
    rewrite Hh in C, R.
    assert (Dp : p' <> p).
    { intros ->. destruct K as [K | K]; [lia | contradiction]. }
    assert (Dk : k' <> k).
    { intros ->. apply Dp. exact (fst_unique _ k p' p keys_unique Hin' Hin). }
    destruct St as [S1 S2]. split.
    - unfold cache_remove. apply filter_In. split; [exact S1 |].
      simpl. destruct (frame_id_eqb k k') eqn:E; [| reflexivity].
      apply frame_id_eqb_eq in E. congruence.
    - intros [E | A]; [congruence | exact (S2 A)]. }
  destruct (if can_evict (heap st p') then _ else _) as [ev' st'] eqn:F.
  simpl in Step. destruct Step as [St' Hh'].
  destruct (ev' <? count); [apply IH; assumption | exact St'].
Qed.

End Evict.

(** C6 (what eviction keeps).  With the cache's keys distinct (a
    FrameCache maps each FrameId once), [evict_frames] leaves the frames'
    data untouched (pin counts included); every resident frame that is
    pinned or whose [evict_action] does not return [SUCCESS] is still
    resident afterwards under the same FrameId and is not added to the
    allocator's free list; and a frame that is not evicted does not stop
    the traversal: when [evicted < count] on entering its visit, the
    traversal goes on with the next entry in the same state. *)
Theorem evict_keeps_pinned_and_failed (count : Z) (act : ptr -> Frame -> RC)
    (s : FrameManager) :
  NoDup (map fst (frames_ s)) ->
  heap (snd (evict_frames count act s)) = heap s /\
  (forall k p, In (k, p) (frames_ s) ->
     (0 < pin_count (heap s p))%nat \/ act p (heap s p) <> SUCCESS ->
     In (k, p) (frames_ (snd (evict_frames count act s))) /\
     (In p (allocator_ (snd (evict_frames count act s))) -> In p (allocator_ s))) /\
  (forall ev st x rest,
     can_evict (heap st (snd x)) = false \/ act (snd x) (heap st (snd x)) <> SUCCESS ->
     ev < count ->
     cache_foreach (fetcher count act) (x :: rest) (ev, st) =
     cache_foreach (fetcher count act) rest (ev, st)).
Proof.
  intros N. split; [unfold evict_frames; rewrite foreach_heap; reflexivity |]. split.
  - intros k p Hin K. unfold evict_frames.
    apply (foreach_keeps count act s N k p (frames_ s) Hin K (incl_refl _) 0 s eq_refl).
    split; [exact Hin | tauto].
  - intros ev st [k p] rest H Lt. simpl in H |- *. unfold fetcher.
    assert (E : (ev <? count) = true) by (apply Z.ltb_lt; exact Lt).
    destruct (can_evict (heap st p)) eqn:C; [| simpl; rewrite E; reflexivity].
    destruct H as [H | H]; [discriminate |].
    destruct (RC_beq (act p (heap st p)) SUCCESS) eqn:R.
    + apply internal_RC_dec_bl in R. contradiction.
    + simpl. rewrite E. reflexivity.
Qed.

Lemma two_frames_keys : NoDup (map fst (frames_ two_frames)).
Proof.
  vm_compute. constructor; [| constructor; [intros [] | constructor]].
  intros [H | []]. discriminate H.
Qed.

Lemma evict_keeps_pinned_and_failed_witness :
  In (frame_id 3 8, 1%nat)
     (frames_ (snd (evict_frames 5 (fun _ _ => SUCCESS) two_frames))) /\
  In (frame_id 3 7, 0%nat)
     (frames_ (snd (evict_frames 5 (fun _ _ => IOERR) two_frames))).
Proof.
  split.
  - apply (proj1 (proj1 (proj2 (evict_keeps_pinned_and_failed 5 (fun _ _ => SUCCESS)
                                   two_frames two_frames_keys)) (frame_id 3 8) 1%nat
                   ltac:(vm_compute; tauto) ltac:(left; vm_compute; lia))).
  - apply (proj1 (proj1 (proj2 (evict_keeps_pinned_and_failed 5 (fun _ _ => IOERR)
                                   two_frames two_frames_keys)) (frame_id 3 7) 0%nat
                   ltac:(vm_compute; tauto) ltac:(right; discriminate))).
Defined.

Lemma foreach_count (count : Z) (l : Cache) : forall ev st,
  0 <= ev < count ->
  fst (cache_foreach (fetcher count (fun _ _ => SUCCESS)) l (ev, st)) =
  Z.min count (ev + Z.of_nat (n_evictable (heap st) l)).
Proof.
  unfold n_evictable.
  induction l as [| [k p] l IH]; intros ev st H; simpl; [lia |].
  unfold fetcher. simpl.
  destruct (can_evict (heap st p)) eqn:C; simpl.
  - destruct (Z.ltb_spec (ev + 1) count) as [Lt | Ge].
    + rewrite (IH (ev + 1)); [simpl; lia | lia].
    + simpl. lia.
  - assert (E : (ev <? count) = true) by (apply Z.ltb_lt; lia).
    rewrite E. apply IH. exact H.
Qed.

(** For [count >= 1] and an action that always succeeds, [evict_frames]
    returns [min(count, k)], [k] the number of resident frames with pin
    count 0. *)
Theorem evict_positive_count (count : Z) (s : FrameManager) :
  1 <= count ->
  fst (evict_frames count (fun _ _ => SUCCESS) s) =
  Z.min count (Z.of_nat (n_evictable (heap s) (frames_ s))).
Proof.
  intros H. unfold evict_frames. rewrite foreach_count; [reflexivity | lia].
Qed.

Lemma evict_positive_count_witness :
  1 <= 1 /\ fst (evict_frames 1 (fun _ _ => SUCCESS) two_frames) = 1.
Proof.
  split; [lia |].
  rewrite (evict_positive_count 1 two_frames ltac:(lia)). vm_compute. reflexivity.
Defined.

End FrameFacts.

Module AppendFacts.
Import Log Append.

(** C8 (append errors).  [append_log] on a null entry returns
    [INVALID_ARGUMENT] and leaves the log buffer as it was; whenever
    [build_record_entry] returns null (allocation failure),
    [append_record_log] returns [NOMEM] and leaves the buffer as it
    was. *)
Theorem append_null_entry_errors :
  (forall b, append_log None b = (INVALID_ARGUMENT, b)) /\
  (forall alloc_ok type trx_id table_id rid data_len data_offset data b,
     build_record_entry alloc_ok type trx_id table_id rid data_len data_offset data = None ->
     append_record_log alloc_ok type trx_id table_id rid data_len data_offset data b
     = (NOMEM, b)).
Proof.
  split; [reflexivity |].
  intros alloc_ok type trx_id table_id rid data_len data_offset data b H.
  unfold append_record_log. rewrite H. reflexivity.
Qed.

Lemma append_null_entry_errors_witness :
  append_log None {| buffered := [] |} = (INVALID_ARGUMENT, {| buffered := [] |}) /\
  append_record_log false INSERT 1 2 {| rid_page_num := 0; rid_slot_num := 1 |} 3 0 [1; 2; 3]
    {| buffered := [] |} = (NOMEM, {| buffered := [] |}).
Proof.
  split; [apply (proj1 append_null_entry_errors) |].
  apply (proj2 append_null_entry_errors). reflexivity.
Defined.

End AppendFacts.

(** ** Decoding what the log buffer writes *)

Module LogFacts.
Import Log Recovery RecoveryDeref LogMgr.

Lemma le_bytes_length (n : nat) : forall v, length (le_bytes n v) = n.
Proof. induction n as [| n IH]; intros v; simpl; [reflexivity | rewrite IH; reflexivity]. Qed.

Lemma le_value_bytes (n : nat) : forall v, le_value (le_bytes n v) = v mod 256 ^ Z.of_nat n.
Proof.
  induction n as [| n IH]; intros v.
  - simpl. rewrite Z.mod_1_r. reflexivity.
  - simpl le_bytes. simpl le_value. rewrite IH.
    rewrite Nat2Z.inj_succ, Z.pow_succ_r by lia.
    rewrite Z.rem_mul_r; [reflexivity | lia |].
    apply Z.pow_pos_nonneg; lia.
Qed.

Lemma mod_range (m v : Z) : 0 < m -> - m <= v < m ->
  v mod m = if v <? 0 then v + m else v.
Proof.
  intros M R. destruct (Z.ltb_spec v 0).
  - rewrite <- (Z.mod_add v 1 m) by lia. rewrite Z.mul_1_l. apply Z.mod_small. lia.
  - apply Z.mod_small. lia.
Qed.

Lemma signed_32 (v : Z) : - 2 ^ 31 <= v < 2 ^ 31 ->
  to_signed 32 (le_value (le_bytes 4 v)) = v.
Proof.
  rewrite le_value_bytes. change (256 ^ Z.of_nat 4) with 4294967296.
  change (2 ^ 31) with 2147483648. intros R.
  unfold to_signed. change (2 ^ (32 - 1)) with 2147483648. change (2 ^ 32) with 4294967296.
  rewrite mod_range by lia.
  repeat match goal with |- context [?a <? ?b] => destruct (Z.ltb_spec a b) end; lia.
Qed.

Lemma signed_64 (v : Z) : - 2 ^ 63 <= v < 2 ^ 63 ->
  to_signed 64 (le_value (le_bytes 8 v)) = v.
Proof.
  rewrite le_value_bytes. change (256 ^ Z.of_nat 8) with 18446744073709551616.
  change (2 ^ 63) with 9223372036854775808. intros R.
  unfold to_signed. change (2 ^ (64 - 1)) with 9223372036854775808.
  change (2 ^ 64) with 18446744073709551616.
  rewrite mod_range by lia.
  repeat match goal with |- context [?a <? ?b] => destruct (Z.ltb_spec a b) end; lia.
Qed.

Lemma serialize_header_length (h : LogEntryHeader) :
  length (serialize_header h) = HEADER_SIZE.
Proof.
  unfold serialize_header. rewrite !length_app, !le_bytes_length. reflexivity.
Qed.

(** [decode_header] reads back every in-range header. *)
Lemma decode_serialized (h : LogEntryHeader) (rest : list Z) :
  header_ok h -> decode_header (serialize_header h ++ rest) = h.
Proof.
  destruct h as [t i l s]. unfold header_ok. cbn [log_type_ trx_id_ log_entry_len_ lsn_].
  intros (T & I & L & S).
  assert (A : firstn 2 (serialize_header {| log_type_ := t; trx_id_ := i;
                 log_entry_len_ := l; lsn_ := s |} ++ rest) = le_bytes 2 t) by reflexivity.
  assert (B : firstn 4 (skipn 2 (serialize_header {| log_type_ := t; trx_id_ := i;
                 log_entry_len_ := l; lsn_ := s |} ++ rest)) = le_bytes 4 i) by reflexivity.
  assert (C : firstn 4 (skipn 6 (serialize_header {| log_type_ := t; trx_id_ := i;
                 log_entry_len_ := l; lsn_ := s |} ++ rest)) = le_bytes 4 l) by reflexivity.
  assert (D : firstn 8 (skipn 10 (serialize_header {| log_type_ := t; trx_id_ := i;
                 log_entry_len_ := l; lsn_ := s |} ++ rest)) = le_bytes 8 s) by reflexivity.
  unfold decode_header. rewrite A, B, C, D.
  rewrite (signed_32 i I), (signed_32 l L), (signed_64 s S).
  rewrite le_value_bytes. change (256 ^ Z.of_nat 2) with 65536.
  change (2 ^ 16) with 65536 in T. rewrite Z.mod_small by exact T. reflexivity.
Qed.

Lemma skipn_advance (c : nat) (d l1 l2 : list Z) :
  (0 < length l1)%nat -> skipn c d = l1 ++ l2 ->
  skipn (c + length l1) d = l2 /\ length d = (c + length l1 + length l2)%nat.
Proof.
  intros P S. split.
  - rewrite Nat.add_comm, <- skipn_skipn, S, skipn_app, Nat.sub_diag, skipn_all. reflexivity.
  - assert (Len : length (skipn c d) = length (l1 ++ l2)) by (rewrite S; reflexivity).
    rewrite length_skipn, length_app in Len.
    destruct (Nat.le_gt_cases c (length d)); [lia |].
    rewrite skipn_all2 in S by lia.
    destruct l1; simpl in *; [lia | discriminate].
Qed.

(** [next] on bytes that start with an in-range header. *)
Lemma next_header (it : LogEntryIterator) (h : LogEntryHeader) (rest : list Z) :
  header_ok h ->
  skipn (cursor (Log.log_file_ it)) (contents (Log.log_file_ it)) = serialize_header h ++ rest ->
  let f := Log.log_file_ it in
  (log_entry_len_ h <= 0 ->
   next it = (SUCCESS,
     {| Log.log_file_ := {| contents := contents f; cursor := cursor f + HEADER_SIZE;
                            eof_flag := eof_flag f |};
        log_entry_ := Some (build h []) |})) /\
  (0 < log_entry_len_ h -> (Z.to_nat (log_entry_len_ h) <= length rest)%nat ->
   next it = (SUCCESS,
     {| Log.log_file_ := {| contents := contents f;
                            cursor := cursor f + HEADER_SIZE + Z.to_nat (log_entry_len_ h);
                            eof_flag := eof_flag f |};
        log_entry_ := Some (build h (firstn (Z.to_nat (log_entry_len_ h)) rest)) |})) /\
  (0 < log_entry_len_ h -> (length rest < Z.to_nat (log_entry_len_ h))%nat ->
   next it = (IOERR,
     {| Log.log_file_ := {| contents := contents f; cursor := length (contents f);
                            eof_flag := true |};
        log_entry_ := log_entry_ it |})).
Proof.
  destruct it as [[d c ef] x]. cbn [Log.log_file_ log_entry_ cursor contents eof_flag].
  intros Ok S. pose proof (serialize_header_length h) as HL.
  destruct (skipn_advance c d _ _ ltac:(rewrite HL; unfold HEADER_SIZE; lia) S) as [S1 Len].
  rewrite HL in S1, Len.
  assert (F : firstn HEADER_SIZE (skipn c d) = serialize_header h).
  { rewrite S, firstn_app, HL, Nat.sub_diag, firstn_O, app_nil_r.
    rewrite <- HL. apply firstn_all. }
  unfold next, read. cbn [Log.log_file_ log_entry_ cursor contents eof_flag].
  destruct (Nat.leb_spec (c + HEADER_SIZE) (length d)) as [E | E]; [| lia].
  rewrite F.
  assert (DH : decode_header (serialize_header h) = h).
  { pose proof (decode_serialized h [] Ok) as Q. rewrite app_nil_r in Q. exact Q. }
  rewrite DH.
  simpl.
  repeat split.
  - intros N. destruct (Z.ltb_spec 0 (log_entry_len_ h)); [lia | reflexivity].
  - intros P Enough. destruct (Z.ltb_spec 0 (log_entry_len_ h)) as [_ | Q]; [| lia].
    destruct (Nat.leb_spec (c + HEADER_SIZE + Z.to_nat (log_entry_len_ h)) (length d)); [| lia].
    simpl. rewrite S1. reflexivity.
  - intros P Short. destruct (Z.ltb_spec 0 (log_entry_len_ h)) as [_ | Q]; [| lia].
    destruct (Nat.leb_spec (c + HEADER_SIZE + Z.to_nat (log_entry_len_ h)) (length d)); [lia |].
    reflexivity.
Qed.

(** At the end of the file [next] fails. *)
Lemma next_at_end (it : LogEntryIterator) :
  skipn (cursor (Log.log_file_ it)) (contents (Log.log_file_ it)) = [] ->
  rc_is_success (fst (next it)) = false.
Proof.
  destruct it as [[d c ef] x]. cbn [Log.log_file_ cursor contents]. intros S.
  assert (L : (length d <= c)%nat).
  { pose proof (length_skipn c d) as L. rewrite S in L. simpl in L. lia. }
  unfold next, read. simpl.
  destruct (Nat.leb_spec (c + HEADER_SIZE) (length d)); [unfold HEADER_SIZE in *; lia |].
  reflexivity.
Qed.

(** On a strict prefix of a serialised entry (a torn write) [next] fails. *)
Lemma next_torn (it : LogEntryIterator) (e : LogEntry) (n : nat) :
  entry_ok e -> (n < length (serialize_entry e))%nat ->
  skipn (cursor (Log.log_file_ it)) (contents (Log.log_file_ it)) = firstn n (serialize_entry e) ->
  rc_is_success (fst (next it)) = false.
Proof.
  intros [Ok Len] Lt S. unfold serialize_entry in *.
  rewrite length_app, serialize_header_length in Lt.
  destruct (Nat.lt_ge_cases n HEADER_SIZE) as [Small | Big].
  - destruct it as [[d c ef] x]. cbn [Log.log_file_ cursor contents] in S |- *.
    assert (L : (length d < c + HEADER_SIZE)%nat).
    { pose proof (length_skipn c d) as L. rewrite S, length_firstn, length_app,
        serialize_header_length in L. lia. }
    unfold next, read. simpl.
    destruct (Nat.leb_spec (c + HEADER_SIZE) (length d)); [lia |].
    reflexivity.
  - rewrite firstn_app, serialize_header_length, firstn_all2 in S
      by (rewrite serialize_header_length; lia).
    destruct (next_header it (header e) _ Ok S) as (_ & _ & T).
    rewrite T; [reflexivity | |]; rewrite Len; [| rewrite length_firstn]; lia.
Qed.

(** The iterator reads back a sequence of serialised well-formed entries
    and stops where [next] fails. *)
Lemma entries_serialized (es : list LogEntry) : forall it rest,
  Forall entry_ok es -> wf it ->
  skipn (cursor (Log.log_file_ it)) (contents (Log.log_file_ it))
  = concat (map serialize_entry es) ++ rest ->
  (forall it', skipn (cursor (Log.log_file_ it')) (contents (Log.log_file_ it')) = rest ->
     rc_is_success (fst (next it')) = false) ->
  entries it = es.
Proof.
  induction es as [| e es IH]; intros it rest F W S T.
  - rewrite entries_unfold by exact W. simpl in S.
    pose proof (T it S) as N. destruct (next it) as [rc it']. simpl in N.
    rewrite N. reflexivity.
  - inversion F as [| ? ? [Ok Len] F']; subst.
    cbn [map concat] in S. unfold serialize_entry at 1 in S. rewrite <- !app_assoc in S.
    destruct (next_header it (header e) _ Ok S) as (N0 & N1 & _).
    destruct it as [[d c ef] x].
    cbn [Log.log_file_ cursor contents eof_flag log_entry_] in S, N0, N1.
    destruct (skipn_advance c d _ _
                ltac:(rewrite serialize_header_length; unfold HEADER_SIZE; lia) S) as [S1 L1].
    rewrite serialize_header_length in S1, L1.
    rewrite entries_unfold by exact W.
    destruct (Z.ltb_spec 0 (log_entry_len_ (header e))) as [P | P].
    + rewrite N1 by (try rewrite Len, Nat2Z.id, !length_app; lia).
      cbn [rc_is_success log_entry_]. f_equal.
      * rewrite Len, Nat2Z.id, firstn_app, Nat.sub_diag, firstn_O, app_nil_r, firstn_all.
        destruct e; reflexivity.
      * rewrite length_app in L1.
        destruct (skipn_advance (c + HEADER_SIZE) d (payload e) _ ltac:(lia) S1) as [S2 L2].
        apply (IH _ rest F'); [unfold wf; cbn [Log.log_file_ cursor contents] | | exact T].
        -- rewrite Len, Nat2Z.id. lia.
        -- cbn [Log.log_file_ cursor contents]. rewrite Len, Nat2Z.id. exact S2.
    + assert (Nil : payload e = []).
      { destruct (payload e); [reflexivity | simpl in Len; lia]. }
      rewrite N0 by exact P. cbn [rc_is_success log_entry_]. f_equal.
      * destruct e as [h p]. cbn [payload] in Nil. subst p. reflexivity.
      * rewrite Nil in S1, L1. cbn [app length] in S1, L1.
        apply (IH _ rest F'); [unfold wf; cbn [Log.log_file_ cursor contents]; lia | | exact T].
        cbn [Log.log_file_ cursor contents]. exact S1.
Qed.

(** Well-formedness of a concrete entry or header. *)
Ltac entry_ok_tac :=
  unfold entry_ok, header_ok, ERROR, MTR_BEGIN, MTR_COMMIT, MTR_ROLLBACK, INSERT, DELETE;
  cbn; repeat split; lia.

(** [next] on bytes that start with a serialised well-formed entry
    returns [SUCCESS], makes that entry the current one and moves the
    cursor past it. *)
Theorem next_reads_serialized_entry (it : LogEntryIterator) (e : LogEntry) (rest : list Z) :
  entry_ok e ->
  skipn (cursor (Log.log_file_ it)) (contents (Log.log_file_ it)) = serialize_entry e ++ rest ->
  next it = (SUCCESS,
    {| Log.log_file_ := {| contents := contents (Log.log_file_ it);
                           cursor := cursor (Log.log_file_ it) + length (serialize_entry e);
                           eof_flag := eof_flag (Log.log_file_ it) |};
       log_entry_ := Some e |}).
Proof.
  intros [Ok Len] S. unfold serialize_entry in *. rewrite <- app_assoc in S.
  destruct (next_header it (header e) _ Ok S) as (N0 & N1 & _).
  rewrite length_app, serialize_header_length.
  destruct (Z.ltb_spec 0 (log_entry_len_ (header e))) as [P | P].
  - rewrite N1 by (try rewrite Len, Nat2Z.id, length_app; lia).
    rewrite Len, Nat2Z.id, firstn_app, Nat.sub_diag, firstn_O, app_nil_r, firstn_all,
      Nat.add_assoc.
    destruct e; reflexivity.
  - assert (Nil : payload e = []).
    { destruct (payload e); [reflexivity | simpl in Len; lia]. }
    rewrite N0 by exact P. rewrite Nil, Nat.add_0_r.
    destruct e as [h p]. cbn [payload] in Nil. subst p. reflexivity.
Qed.

Lemma next_reads_serialized_entry_witness :
  entry_ok {| header := {| log_type_ := INSERT; trx_id_ := -1; log_entry_len_ := 2; lsn_ := 9 |};
              payload := [5; 6] |} /\
  next (init (open_file (serialize_entry
          {| header := {| log_type_ := INSERT; trx_id_ := -1; log_entry_len_ := 2; lsn_ := 9 |};
             payload := [5; 6] |} ++ [1; 2; 3])))
  = (SUCCESS,
     {| Log.log_file_ := {| contents := serialize_entry
          {| header := {| log_type_ := INSERT; trx_id_ := -1; log_entry_len_ := 2; lsn_ := 9 |};
             payload := [5; 6] |} ++ [1; 2; 3]; cursor := 20; eof_flag := false |};
        log_entry_ := Some {| header := {| log_type_ := INSERT; trx_id_ := -1;
                                           log_entry_len_ := 2; lsn_ := 9 |};
                              payload := [5; 6] |} |}).
Proof.
  assert (Ok : entry_ok {| header := {| log_type_ := INSERT; trx_id_ := -1;
                                        log_entry_len_ := 2; lsn_ := 9 |};
                           payload := [5; 6] |}).
  { entry_ok_tac. }
  split; [exact Ok |].
  match goal with
  | |- next ?it = _ => rewrite (next_reads_serialized_entry it _ [1; 2; 3] Ok eq_refl)
  end.
  reflexivity.
Defined.

(** A header whose [log_entry_len] is zero or negative is not rejected:
    [next] returns [SUCCESS] with an entry of empty payload and consumes
    the header only, so the bytes that follow are read as the next
    header. *)
Theorem next_nonpositive_length (it : LogEntryIterator) (h : LogEntryHeader) (rest : list Z) :
  header_ok h -> log_entry_len_ h <= 0 ->
  skipn (cursor (Log.log_file_ it)) (contents (Log.log_file_ it)) = serialize_header h ++ rest ->
  next it = (SUCCESS,
    {| Log.log_file_ := {| contents := contents (Log.log_file_ it);
                           cursor := cursor (Log.log_file_ it) + HEADER_SIZE;
                           eof_flag := eof_flag (Log.log_file_ it) |};
       log_entry_ := Some (build h []) |}).
Proof.
  intros Ok N S. exact (proj1 (next_header it h rest Ok S) N).
Qed.

Lemma next_nonpositive_length_witness :
  header_ok {| log_type_ := INSERT; trx_id_ := 1; log_entry_len_ := -3; lsn_ := 0 |} /\
  -3 <= 0 /\
  fst (next (init (open_file (serialize_header
         {| log_type_ := INSERT; trx_id_ := 1; log_entry_len_ := -3; lsn_ := 0 |} ++ [7; 8; 9]))))
  = SUCCESS.
Proof.
  assert (Ok : header_ok {| log_type_ := INSERT; trx_id_ := 1; log_entry_len_ := -3; lsn_ := 0 |}).
  { entry_ok_tac. }
  split; [exact Ok | split; [lia |]].
  match goal with
  | |- fst (next ?it) = _ =>
      rewrite (next_nonpositive_length it _ [7; 8; 9] Ok ltac:(cbn; lia) eq_refl)
  end.
  reflexivity.
Defined.

(** On a torn entry (a strict prefix of a serialised well-formed entry)
    [next] fails: with [RECORD_EOF] when the header itself is cut, with
    [IOERR] when the header is complete and the payload is cut.  Either
    way the current entry is kept and the cursor is at the end of the
    file. *)
Theorem next_torn_entry (it : LogEntryIterator) (e : LogEntry) (n : nat) :
  entry_ok e -> (n < length (serialize_entry e))%nat ->
  skipn (cursor (Log.log_file_ it)) (contents (Log.log_file_ it)) = firstn n (serialize_entry e) ->
  fst (next it) = (if (n <? HEADER_SIZE)%nat then RECORD_EOF else IOERR) /\
  log_entry_ (snd (next it)) = log_entry_ it /\
  cursor (Log.log_file_ (snd (next it))) = length (contents (Log.log_file_ it)).
Proof.
  intros [Ok Len] Lt S. unfold serialize_entry in *.
  rewrite length_app, serialize_header_length in Lt.
  destruct (Nat.ltb_spec n HEADER_SIZE) as [Small | Big].
  - destruct it as [[d c ef] x]. cbn [Log.log_file_ log_entry_ cursor contents] in S |- *.
    assert (L : (length d < c + HEADER_SIZE)%nat).
    { pose proof (length_skipn c d) as L. rewrite S, length_firstn, length_app,
        serialize_header_length in L. lia. }
    unfold next, read. cbn [Log.log_file_ log_entry_ cursor contents].
    destruct (Nat.leb_spec (c + HEADER_SIZE) (length d)); [lia |].
    repeat split.
  - rewrite firstn_app, serialize_header_length, firstn_all2 in S
      by (rewrite serialize_header_length; lia).
    destruct (next_header it (header e) _ Ok S) as (_ & _ & T).
    rewrite T; [repeat split | |]; rewrite Len; [| rewrite length_firstn]; lia.
Qed.

Lemma next_torn_entry_witness :
  fst (next (init (open_file (firstn 20 insert_1)))) = IOERR /\
  fst (next (init (open_file (firstn 5 insert_1)))) = RECORD_EOF.
Proof.
  assert (Ok : entry_ok {| header := {| log_type_ := INSERT; trx_id_ := 1;
                                        log_entry_len_ := 3; lsn_ := 0 |};
                           payload := [7; 8; 9] |}).
  { entry_ok_tac. }
  split.
  - exact (proj1 (next_torn_entry (init (open_file (firstn 20 insert_1))) _ 20 Ok
                    ltac:(vm_compute; lia) eq_refl)).
  - exact (proj1 (next_torn_entry (init (open_file (firstn 5 insert_1))) _ 5 Ok
                    ltac:(vm_compute; lia) eq_refl)).
Defined.

(** Once [next] has failed, every later call fails as well and the
    iterator keeps the entry it held before the failure: [valid()] never
    changes again. *)
Theorem next_after_failure (it : LogEntryIterator) (k : nat) :
  rc_is_success (fst (next it)) = false ->
  rc_is_success (fst (next (Nat.iter k (fun i => snd (next i)) (snd (next it))))) = false /\
  log_entry_ (Nat.iter k (fun i => snd (next i)) (snd (next it))) = log_entry_ it /\
  valid (Nat.iter k (fun i => snd (next i)) (snd (next it))) = valid it.
Proof.
  intros F. destruct (next_fail it F) as [D E].
  assert (Inv : forall j, dead (Nat.iter j (fun i => snd (next i)) (snd (next it))) /\
                log_entry_ (Nat.iter j (fun i => snd (next i)) (snd (next it))) = log_entry_ it).
  { induction j as [| j [Dj Ej]]; [split; assumption |].
    simpl. destruct (next_fail _ (dead_next _ Dj)) as [D' E']. split; [exact D' |].
    rewrite E'. exact Ej. }
  destruct (Inv k) as [Dk Ek]. split; [exact (dead_next _ Dk) |].
  split; [exact Ek | unfold valid; rewrite Ek; reflexivity].
Qed.

Lemma next_after_failure_witness :
  rc_is_success (fst (next (snd (next (init (open_file begin_only_log)))))) = false /\
  valid (Nat.iter 5 (fun i => snd (next i))
           (snd (next (snd (next (init (open_file begin_only_log))))))) = true.
Proof.
  assert (F : rc_is_success (fst (next (snd (next (init (open_file begin_only_log)))))) = false)
    by (vm_compute; reflexivity).
  split; [exact F |].
  rewrite (proj2 (proj2 (next_after_failure _ 5 F))). vm_compute. reflexivity.
Defined.

(** Round trip: a file made of serialised well-formed entries, possibly
    followed by a torn (strictly cut) last entry, reads back as exactly
    those entries, in order. *)
Theorem iterator_round_trip (es : list LogEntry) (rest : list Z) :
  Forall entry_ok es ->
  (rest = [] \/ exists e n, entry_ok e /\ (n < length (serialize_entry e))%nat /\
                            rest = firstn n (serialize_entry e)) ->
  entries_of_file (concat (map serialize_entry es) ++ rest) = es.
Proof.
  intros F R. unfold entries_of_file.
  apply (entries_serialized es _ rest F); [unfold wf; cbn; lia | reflexivity |].
  intros it' S. destruct R as [-> | (e & n & Ok & Lt & ->)].
  - exact (next_at_end it' S).
  - exact (next_torn it' e n Ok Lt S).
Qed.

Lemma iterator_round_trip_witness :
  entries_of_file (concat (map serialize_entry
    [{| header := {| log_type_ := MTR_BEGIN; trx_id_ := 1; log_entry_len_ := 0; lsn_ := 0 |};
        payload := [] |};
     {| header := {| log_type_ := DELETE; trx_id_ := 1; log_entry_len_ := 2; lsn_ := 5 |};
        payload := [4; 2] |}]) ++ firstn 19 insert_1)
  = [{| header := {| log_type_ := MTR_BEGIN; trx_id_ := 1; log_entry_len_ := 0; lsn_ := 0 |};
        payload := [] |};
     {| header := {| log_type_ := DELETE; trx_id_ := 1; log_entry_len_ := 2; lsn_ := 5 |};
        payload := [4; 2] |}].
Proof.
  match goal with
  | |- entries_of_file (concat (map serialize_entry ?es) ++ ?r) = _ =>
      apply (iterator_round_trip es r)
  end.
  - repeat (apply Forall_cons; [entry_ok_tac |]). apply Forall_nil.
  - right. exists {| header := {| log_type_ := INSERT; trx_id_ := 1;
                                  log_entry_len_ := 3; lsn_ := 0 |};
                     payload := [7; 8; 9] |}, 19%nat.
    split; [entry_ok_tac |].
    split; [vm_compute; lia | reflexivity].
Defined.

(** A log whose first entry is torn is recovered as an empty log:
    [recover] returns [SUCCESS] and makes no call on the transaction
    manager. *)
Theorem recover_torn_first_entry (fuel : nat) (e : LogEntry) (n : nat) :
  entry_ok e -> (n < length (serialize_entry e))%nat ->
  recover (S fuel) (firstn n (serialize_entry e)) = Returned SUCCESS empty_trx_manager.
Proof.
  intros Ok Lt. unfold recover.
  pose proof (next_torn (init (open_file (firstn n (serialize_entry e)))) e n Ok Lt eq_refl) as F.
  destruct (next_fail _ F) as [_ E].
  destruct (next (init (open_file (firstn n (serialize_entry e))))) as [rc it']. cbn in E |- *.
  rewrite E. reflexivity.
Qed.

Lemma recover_torn_first_entry_witness :
  recover 4 (firstn 20 insert_1) = Returned SUCCESS empty_trx_manager.
Proof.
  apply (recover_torn_first_entry 3 {| header := {| log_type_ := INSERT; trx_id_ := 1;
                                                    log_entry_len_ := 3; lsn_ := 0 |};
                                       payload := [7; 8; 9] |} 20).
  - entry_ok_tac.
  - vm_compute. lia.
Defined.

(** When [append_commit_trx_log] returns [SUCCESS] on a log file that
    holds serialised well-formed entries, the file afterwards reads back
    as those entries, then every entry that was buffered, then the commit
    entry, in that order; the buffer is empty. *)
Theorem commit_durable (alloc_ok write_ok : bool) (trx_id commit_xid : Z)
    (lm lm' : LogManager) (old : list LogEntry) :
  Forall entry_ok old -> Forall entry_ok (Append.buffered (log_buffer_ lm)) ->
  log_file_ lm = concat (map serialize_entry old) ->
  - 2 ^ 31 <= trx_id < 2 ^ 31 ->
  append_commit_trx_log alloc_ok write_ok trx_id commit_xid lm = (SUCCESS, lm') ->
  entries_of_file (log_file_ lm')
  = old ++ Append.buffered (log_buffer_ lm) ++
    [{| header := {| log_type_ := MTR_COMMIT; trx_id_ := trx_id;
                     log_entry_len_ := 4; lsn_ := 0 |};
        payload := le_bytes 4 commit_xid |}] /\
  Append.buffered (log_buffer_ lm') = [].
Proof.
  intros Fo Fb Hf R C.
  destruct alloc_ok; [| discriminate C]. destruct write_ok; [| discriminate C].
  destruct lm as [[b] f]. cbn [log_buffer_ log_file_ Append.buffered] in *. subst f.
  unfold append_commit_trx_log, append_log, Append.append_log, Append.append_log_entry,
    build_commit_entry, sync, flush_buffer in C.
  cbn [log_buffer_ log_file_ Append.buffered RC_beq negb] in C.
  injection C as <-. cbn [log_buffer_ log_file_ Append.buffered]. split; [| reflexivity].
  rewrite <- concat_app, <- map_app. unfold entries_of_file.
  apply (entries_serialized _ _ [] ); [| unfold wf; cbn; lia | cbn; rewrite app_nil_r; reflexivity |].
  - apply Forall_app. split; [exact Fo |]. apply Forall_app. split; [exact Fb |].
    constructor; [| constructor]. split.
    + unfold header_ok, MTR_COMMIT. cbn [log_type_ trx_id_ log_entry_len_ lsn_ header]. lia.
    + cbn [payload header log_entry_len_]. rewrite le_bytes_length. reflexivity.
  - intros it' S. exact (next_at_end it' S).
Qed.

Lemma commit_durable_witness :
  entries_of_file (log_file_ (snd (append_commit_trx_log true true 1 7
    {| log_buffer_ := {| Append.buffered :=
         [{| header := {| log_type_ := MTR_BEGIN; trx_id_ := 1; log_entry_len_ := 0; lsn_ := 0 |};
             payload := [] |}] |};
       log_file_ := [] |})))
  = [{| header := {| log_type_ := MTR_BEGIN; trx_id_ := 1; log_entry_len_ := 0; lsn_ := 0 |};
        payload := [] |};
     {| header := {| log_type_ := MTR_COMMIT; trx_id_ := 1; log_entry_len_ := 4; lsn_ := 0 |};
        payload := le_bytes 4 7 |}].
Proof.
  match goal with
  | |- entries_of_file (log_file_ (snd (append_commit_trx_log _ _ _ _ ?lm))) = _ =>
      refine (proj1 (commit_durable true true 1 7 lm _ [] (Forall_nil _) _ eq_refl _ eq_refl))
  end.
  - repeat (apply Forall_cons; [entry_ok_tac |]). apply Forall_nil.
  - lia.
Defined.


(** When the builder of a begin, rollback or commit entry fails to
    allocate, the append returns [INVALID_ARGUMENT] (the null entry is
    passed on to [append_log]) and the commit does not sync; the same
    failure in [append_record_log] gives [NOMEM].  In all four cases the
    manager is left as it was. *)
Theorem builder_failure_codes (trx_id commit_xid : Z) (write_ok : bool)
    (type table_id : Z) (rid : Append.RID) (data_len data_offset : Z) (data : list Z)
    (lm : LogManager) :
  append_begin_trx_log false trx_id lm = (INVALID_ARGUMENT, lm) /\
  append_rollback_trx_log false trx_id lm = (INVALID_ARGUMENT, lm) /\
  append_commit_trx_log false write_ok trx_id commit_xid lm = (INVALID_ARGUMENT, lm) /\
  append_record_log false type trx_id table_id rid data_len data_offset data lm = (NOMEM, lm).
Proof. destruct lm as [b f]. repeat split. Qed.

End LogFacts.

(** ** More of the frame manager: [find_list], [cleanup], alloc after
    eviction *)

Module FrameExtras.
Import Frames FrameFacts.

Lemma heap_pin (p q : ptr) (s : FrameManager) :
  heap (pin p s) q =
  if Nat.eqb q p then {| pin_count := S (pin_count (heap s p)); page_num := page_num (heap s p) |}
  else heap s q.
Proof. reflexivity. Qed.

Lemma find_foreach (fd : Z) (l : Cache) : forall acc st,
  fst (cache_foreach (find_fetcher fd) l (acc, st))
  = acc ++ map snd (filter (fun kv => Z.eqb fd (fid_file_desc (fst kv))) l) /\
  frames_ (snd (cache_foreach (find_fetcher fd) l (acc, st))) = frames_ st /\
  allocator_ (snd (cache_foreach (find_fetcher fd) l (acc, st))) = allocator_ st /\
  (forall p,
     pin_count (heap (snd (cache_foreach (find_fetcher fd) l (acc, st))) p)
     = (pin_count (heap st p)
        + count_occ Nat.eq_dec (map snd (filter (fun kv => Z.eqb fd (fid_file_desc (fst kv))) l)) p)%nat /\
     page_num (heap (snd (cache_foreach (find_fetcher fd) l (acc, st))) p)
     = page_num (heap st p)).
Proof.
  induction l as [| [k q] l IH]; intros acc st.
  - cbn. rewrite app_nil_r. repeat split; intros; lia.
  - cbn [cache_foreach find_fetcher filter fst].
    destruct (fd =? fid_file_desc k) eqn:E.
    + destruct (IH (acc ++ [q]) (pin q st)) as (A & F & Al & H).
      cbn [map]. rewrite <- app_assoc in A. split; [exact A |].
      split; [exact F |]. split; [exact Al |].
      intros p. destruct (H p) as [Hp Hn]. rewrite Hp, Hn, heap_pin.
      cbn [map count_occ snd]. destruct (Nat.eq_dec q p) as [-> | D].
      * rewrite Nat.eqb_refl. cbn [pin_count page_num]. split; [lia | reflexivity].
      * assert (Nat.eqb p q = false) as -> by (apply Nat.eqb_neq; congruence).
        split; reflexivity.
    + exact (IH acc st).
Qed.

(** [find_list(fd)] returns the frames of the cache entries whose FrameId
    has file descriptor [fd], in cache order, and pins each of them once
    per time it is returned; the cache, the free list and the frames'
    page numbers are unchanged, and every other frame keeps its pin
    count. *)
Theorem find_list_pins_matching (fd : Z) (s : FrameManager) :
  fst (find_list fd s) = map snd (filter (fun kv => Z.eqb fd (fid_file_desc (fst kv))) (frames_ s)) /\
  frames_ (snd (find_list fd s)) = frames_ s /\
  allocator_ (snd (find_list fd s)) = allocator_ s /\
  (forall p,
     pin_count (heap (snd (find_list fd s)) p)
     = (pin_count (heap s p) + count_occ Nat.eq_dec (fst (find_list fd s)) p)%nat /\
     page_num (heap (snd (find_list fd s)) p) = page_num (heap s p)).
Proof.
  unfold find_list. destruct (find_foreach fd (frames_ s) [] s) as (A & F & Al & H).
  rewrite A. cbn [app]. split; [reflexivity |]. split; [exact F |]. split; [exact Al |].
  exact H.
Qed.

(** Freeing a frame that [alloc] has just taken from the free list
    undoes the allocation: the cache and the free list are as before, the
    frame is unpinned, and no other frame changed. *)
Lemma alloc_fresh_free (fd pn : Z) (s s1 : FrameManager) (p : ptr) :
  cache_lookup (frame_id fd pn) (frames_ s) = None ->
  alloc fd pn s = Some (Some p, s1) ->
  exists s2, free fd pn p s1 = Some (SUCCESS, s2) /\
    frames_ s2 = frames_ s /\ allocator_ s2 = allocator_ s /\
    pin_count (heap s2 p) = 0%nat /\ page_num (heap s2 p) = pn /\
    (forall q, q <> p -> heap s2 q = heap s q).
Proof.
  intros L A. unfold alloc, get_internal, cache_get in A. rewrite L in A.
  unfold allocator_alloc in A. cbn [with_frames allocator_ frames_ heap] in A.
  destruct (allocator_ s) as [| p0 r] eqn:Al; [discriminate |].
  cbn [heap] in A. destruct (Nat.eqb (pin_count (heap s p0)) 0) eqn:Z0; [| discriminate].
  injection A as <- <-. apply Nat.eqb_eq in Z0.
  unfold free, free_internal, cache_get. cbn [with_frames frames_ pin set_page_num update_frame].
  rewrite lookup_put. cbn [with_frames frames_ heap unpin update_frame pin set_page_num].
  eexists. split.
  { rewrite !Nat.eqb_refl. cbn [pin_count page_num andb]. rewrite Z0. reflexivity. }
  assert (Rm : cache_remove (frame_id fd pn) (frames_ s) = frames_ s).
  { clear -L. induction (frames_ s) as [| [k v] c IH]; [reflexivity |].
    cbn in L |- *. destruct (frame_id_eqb k (frame_id fd pn)); [discriminate |].
    cbn. f_equal. exact (IH L). }
  cbn [allocator_free with_frames frames_ allocator_ heap unpin update_frame pin set_page_num].
  rewrite !remove_put, Rm. split; [reflexivity |]. split; [reflexivity |].
  rewrite !Nat.eqb_refl. cbn [pin_count page_num]. rewrite Z0.
  split; [reflexivity |]. split; [reflexivity |].
  intros q D. apply Nat.eqb_neq in D. rewrite !D. reflexivity.
Qed.

(** Allocating a page that is not resident and freeing the frame again
    restores the cache and the free list; the frame is unpinned and
    carries the page number it was given; no other frame changed. *)
Theorem alloc_free_restores (fd pn : Z) (s s1 : FrameManager) (p : ptr) :
  cache_lookup (frame_id fd pn) (frames_ s) = None ->
  alloc fd pn s = Some (Some p, s1) ->
  exists s2, free fd pn p s1 = Some (SUCCESS, s2) /\
    frames_ s2 = frames_ s /\ allocator_ s2 = allocator_ s /\
    pin_count (heap s2 p) = 0%nat /\ page_num (heap s2 p) = pn /\
    (forall q, q <> p -> heap s2 q = heap s q).
Proof. exact (alloc_fresh_free fd pn s s1 p). Qed.

Lemma alloc_free_restores_witness :
  cache_lookup (frame_id 3 8) (frames_ one_unpinned) = None /\
  (exists s2, free 3 8 1%nat (match alloc 3 8 one_unpinned with
                              | Some (_, s1) => s1 | None => one_unpinned end)
              = Some (SUCCESS, s2) /\
     frames_ s2 = frames_ one_unpinned /\ allocator_ s2 = allocator_ one_unpinned /\
     pin_count (heap s2 1%nat) = 0%nat /\ page_num (heap s2 1%nat) = 8 /\
     (forall q, q <> 1%nat -> heap s2 q = heap one_unpinned q)).
Proof.
  split; [vm_compute; reflexivity |].
  exact (alloc_free_restores 3 8 one_unpinned _ 1%nat ltac:(vm_compute; reflexivity) eq_refl).
Defined.

(** [cleanup] detects a leaked frame: on a manager with an empty cache,
    after [alloc] of a page [cleanup] fails with [INTERNAL] (and changes
    nothing); once the frame is freed, [cleanup] succeeds. *)
Theorem cleanup_after_alloc_free (fd pn : Z) (s s1 : FrameManager) (p : ptr) :
  frames_ s = [] ->
  alloc fd pn s = Some (Some p, s1) ->
  cleanup s1 = (INTERNAL, s1) /\
  exists s2, free fd pn p s1 = Some (SUCCESS, s2) /\ fst (cleanup s2) = SUCCESS.
Proof.
  intros E A.
  assert (L : cache_lookup (frame_id fd pn) (frames_ s) = None) by (rewrite E; reflexivity).
  split.
  - pose proof (lookup_in _ _ _ (alloc_resident fd pn s s1 p A)) as I.
    unfold cleanup. destruct (frames_ s1) as [| x c]; [contradiction |]. reflexivity.
  - destruct (alloc_fresh_free fd pn s s1 p L A) as (s2 & F & Fr & _).
    exists s2. split; [exact F |]. unfold cleanup. rewrite Fr, E. reflexivity.
Qed.

Lemma cleanup_after_alloc_free_witness :
  frames_ (init 2) = [] /\
  cleanup (match alloc 3 7 (init 2) with Some (_, s1) => s1 | None => init 2 end)
  = (INTERNAL, match alloc 3 7 (init 2) with Some (_, s1) => s1 | None => init 2 end).
Proof.
  split; [reflexivity |].
  exact (proj1 (cleanup_after_alloc_free 3 7 (init 2) _ 0%nat eq_refl eq_refl)).
Defined.

(** During eviction, once a frame has been evicted the head of the free
    list is a frame with pin count 0. *)
Lemma foreach_free_head (count : Z) (act : ptr -> Frame -> RC) (l : Cache) : forall ev st,
  (ev <= 0 \/ exists p r, allocator_ st = p :: r /\ pin_count (heap st p) = 0%nat) ->
  fst (cache_foreach (fetcher count act) l (ev, st)) <= 0 \/
  exists p r, allocator_ (snd (cache_foreach (fetcher count act) l (ev, st))) = p :: r /\
    pin_count (heap (snd (cache_foreach (fetcher count act) l (ev, st))) p) = 0%nat.
Proof.
  induction l as [| [k q] l IH]; intros ev st Inv; [exact Inv |].
  cbn [cache_foreach].
  destruct (fetcher count act (ev, st) (k, q)) as [b [ev' st']] eqn:F.
  assert (Step : ev' <= 0 \/ exists p r, allocator_ st' = p :: r /\ pin_count (heap st' p) = 0%nat).
  { unfold fetcher in F.
    destruct (can_evict (heap st q)) eqn:C; [| injection F as _ E1 E2; subst ev' st'; exact Inv].
    destruct (RC_beq (act q (heap st q)) SUCCESS); [| injection F as _ E1 E2; subst ev' st'; exact Inv].
    injection F as _ E1 E2. subst ev' st'. right. exists q, (allocator_ st). split; [reflexivity |].
    unfold can_evict in C. apply Nat.eqb_eq in C. exact C. }
  destruct b; [apply IH; exact Step | exact Step].
Qed.

(** After [evict_frames] has evicted at least one frame, [alloc] of any
    page succeeds: it returns a frame, never null, and its assertion on
    the pin count of the frame taken from the allocator holds. *)
Theorem evict_then_alloc (count : Z) (act : ptr -> Frame -> RC) (s : FrameManager) (fd pn : Z) :
  1 <= fst (evict_frames count act s) ->
  exists p s2, alloc fd pn (snd (evict_frames count act s)) = Some (Some p, s2).
Proof.
  intros Ev. unfold evict_frames in *.
  destruct (foreach_free_head count act (frames_ s) 0 s (or_introl (Z.le_refl 0)))
    as [N | (p & r & Al & Pz)]; [lia |].
  set (s' := snd (cache_foreach (fetcher count act) (frames_ s) (0, s))) in *.
  unfold alloc, get_internal, cache_get.
  destruct (cache_lookup (frame_id fd pn) (frames_ s')) as [q |].
  - exists q. eexists. reflexivity.
  - unfold allocator_alloc. cbn [with_frames allocator_ heap]. rewrite Al.
    cbn [heap]. rewrite Pz. cbn. exists p. eexists. reflexivity.
Qed.

Lemma evict_then_alloc_witness :
  1 <= fst (evict_frames 1 (fun _ _ => SUCCESS) two_frames) /\
  exists p s2, alloc 5 1 (snd (evict_frames 1 (fun _ _ => SUCCESS) two_frames)) = Some (Some p, s2).
Proof.
  assert (E : 1 <= fst (evict_frames 1 (fun _ _ => SUCCESS) two_frames))
    by (vm_compute; discriminate).
  split; [exact E |]. exact (evict_then_alloc 1 (fun _ _ => SUCCESS) two_frames 5 1 E).
Defined.

(** [alloc] of a page that is already resident returns its frame and
    pins it once more, without touching the allocator or any other
    frame. *)
Theorem alloc_resident_frame (fd pn : Z) (s : FrameManager) (p : ptr) :
  cache_lookup (frame_id fd pn) (frames_ s) = Some p ->
  exists s1, alloc fd pn s = Some (Some p, s1) /\
    allocator_ s1 = allocator_ s /\
    pin_count (heap s1 p) = S (pin_count (heap s p)) /\
    page_num (heap s1 p) = page_num (heap s p) /\
    (forall q, q <> p -> heap s1 q = heap s q) /\
    cache_lookup (frame_id fd pn) (frames_ s1) = Some p.
Proof.
  intros L. unfold alloc, get_internal, cache_get. rewrite L.
  eexists. split; [reflexivity |]. cbn. rewrite Nat.eqb_refl.
  split; [reflexivity |]. split; [reflexivity |]. split; [reflexivity |].
  split; [intros q D; apply Nat.eqb_neq in D; rewrite D; reflexivity |].
  apply lookup_put.
Qed.

Lemma alloc_resident_frame_witness :
  cache_lookup (frame_id 3 8) (frames_ two_frames) = Some 1%nat /\
  exists s1, alloc 3 8 two_frames = Some (Some 1%nat, s1) /\
    allocator_ s1 = allocator_ two_frames /\
    pin_count (heap s1 1%nat) = S (pin_count (heap two_frames 1%nat)) /\
    page_num (heap s1 1%nat) = page_num (heap two_frames 1%nat) /\
    (forall q, q <> 1%nat -> heap s1 q = heap two_frames q) /\
    cache_lookup (frame_id 3 8) (frames_ s1) = Some 1%nat.
Proof.
  assert (L : cache_lookup (frame_id 3 8) (frames_ two_frames) = Some 1%nat)
    by (vm_compute; reflexivity).
  split; [exact L |]. exact (alloc_resident_frame 3 8 two_frames 1%nat L).
Defined.

(** ** The bookkeeping invariant under eviction and unpinning *)

Lemma keys_remove (k : FrameId) (c : Cache) :
  NoDup (map fst c) -> NoDup (map fst (cache_remove k c)).
Proof.
  induction c as [| [k' v'] c IH]; intros N; [constructor |].
  inversion N as [| ? ? Hn N']; subst. cbn.
  destruct (frame_id_eqb k' k); cbn; [exact (IH N') |].
  constructor; [| exact (IH N')].
  intros H. apply Hn. apply in_map_iff in H. destruct H as [[k2 v2] [E H]].
  cbn in E. subst k2. unfold cache_remove in H. apply filter_In in H.
  apply in_map_iff. exists (k', v2). split; [reflexivity | exact (proj1 H)].
Qed.

Lemma keys_put (k : FrameId) (v : ptr) (c : Cache) :
  NoDup (map fst c) -> NoDup (map fst (cache_put k v c)).
Proof.
  intros N. unfold cache_put. rewrite map_app. cbn.
  apply NoDup_app; [exact (keys_remove k c N) | constructor; [intros [] | constructor] |].
  intros x Hx [E | []]. subst x. apply in_map_iff in Hx. destruct Hx as [[k2 v2] [E H]].
  cbn in E. subst k2. unfold cache_remove in H. apply filter_In in H. cbn in H.
  rewrite frame_id_eqb_refl in H. destruct H as [_ H]. discriminate.
Qed.

Lemma keys_get_internal (k : FrameId) (s : FrameManager) :
  NoDup (map fst (frames_ s)) -> NoDup (map fst (frames_ (snd (get_internal k s)))).
Proof.
  intros N. unfold get_internal, cache_get.
  destruct (cache_lookup k (frames_ s)); cbn; [exact (keys_put _ _ _ N) | exact N].
Qed.

Lemma keys_alloc (fd pn : Z) (s : FrameManager) r s' :
  NoDup (map fst (frames_ s)) -> alloc fd pn s = Some (r, s') -> NoDup (map fst (frames_ s')).
Proof.
  intros N. unfold alloc.
  pose proof (keys_get_internal (frame_id fd pn) s N) as N1.
  destruct (get_internal (frame_id fd pn) s) as [[p |] s1]; cbn in N1.
  - intros H. injection H as _ <-. exact N1.
  - unfold allocator_alloc. destruct (allocator_ s1) as [| p rest].
    + intros H. injection H as _ <-. exact N1.
    + destruct (Nat.eqb _ 0); [| discriminate].
      intros H. injection H as _ <-. cbn. apply keys_put. exact N1.
Qed.

Lemma keys_free (fd pn : Z) (fr : ptr) (s : FrameManager) rc s' :
  NoDup (map fst (frames_ s)) -> free fd pn fr s = Some (rc, s') ->
  NoDup (map fst (frames_ s')).
Proof.
  intros N. unfold free, free_internal, cache_get.
  destruct (cache_lookup (frame_id fd pn) (frames_ s)) as [q |]; [| discriminate].
  destruct (_ && _); [| discriminate].
  intros H. injection H as _ <-. cbn. apply keys_remove, keys_put. exact N.
Qed.

Lemma lookup_of_in (k : FrameId) (v : ptr) (c : Cache) :
  NoDup (map fst c) -> In (k, v) c -> cache_lookup k c = Some v.
Proof.
  induction c as [| [k' v'] c IH]; intros N H; [destruct H |].
  inversion N as [| ? ? Hn N']; subst. cbn.
  destruct H as [E | H].
  - injection E as -> ->. rewrite frame_id_eqb_refl. reflexivity.
  - destruct (frame_id_eqb k' k) eqn:E.
    + apply frame_id_eqb_eq in E. subst k'. exfalso. apply Hn.
      apply in_map_iff. exists (k, v). split; [reflexivity | exact H].
    + exact (IH N' H).
Qed.

(** Every step of the eviction traversal keeps the invariant: the entry
    it visits is still in the cache (keys are distinct), so returning its
    frame to the free list is a release. *)
Lemma foreach_pool_inv (P : nat) (count : Z) (act : ptr -> Frame -> RC) (l : Cache) :
  forall ev st,
  pool_inv P st -> NoDup (map fst (frames_ st)) -> incl l (frames_ st) -> NoDup (map fst l) ->
  pool_inv P (snd (cache_foreach (fetcher count act) l (ev, st))) /\
  NoDup (map fst (frames_ (snd (cache_foreach (fetcher count act) l (ev, st))))).
Proof.
  induction l as [| [k q] l IH]; intros ev st I N Inc Nl; [split; assumption |].
  inversion Nl as [| ? ? Hk Nl']; subst.
  assert (Hin : In (k, q) (frames_ st)) by (apply Inc; left; reflexivity).
  cbn [cache_foreach].
  destruct (fetcher count act (ev, st) (k, q)) as [b [ev' st']] eqn:F.
  assert (Step : pool_inv P st' /\ NoDup (map fst (frames_ st')) /\ incl l (frames_ st')).
  { unfold fetcher in F.
    assert (Inc' : incl l (frames_ st)) by (intros y Hy; apply Inc; right; exact Hy).
    destruct (can_evict (heap st q)); [| injection F as _ E1 E2; subst st'; auto].
    destruct (RC_beq (act q (heap st q)) SUCCESS); [| injection F as _ E1 E2; subst st'; auto].
    injection F as _ E1 E2. subst st'. split; [| split].
    - apply (pool_inv_release P k q st); [exact I | exact (lookup_of_in _ _ _ N Hin) | |];
        reflexivity.
    - cbn. apply keys_remove. exact N.
    - intros [k2 v2] Hy. cbn. unfold cache_remove. apply filter_In. split; [exact (Inc' _ Hy) |].
      cbn. destruct (frame_id_eqb k2 k) eqn:E; [| reflexivity].
      apply frame_id_eqb_eq in E. subst k2. exfalso. apply Hk.
      apply in_map_iff. exists (k, v2). split; [reflexivity | exact Hy]. }
  destruct Step as (I' & N' & Inc'').
  destruct b; [exact (IH ev' st' I' N' Inc'' Nl') | split; assumption].
Qed.

Lemma pool_inv_call (P : nat) (c : Call) (s s' : FrameManager) :
  pool_inv P s -> NoDup (map fst (frames_ s)) -> exec_call c s = Some s' ->
  pool_inv P s' /\ NoDup (map fst (frames_ s')).
Proof.
  intros I N E. destruct c as [[fd pn | fd pn | fd pn fr] | count act | p]; cbn in E.
  - destruct (alloc fd pn s) as [[r1 s2] |] eqn:A; cbn in E; [| discriminate].
    injection E as <-.
    exact (conj (pool_inv_alloc P fd pn s r1 s2 I A) (keys_alloc fd pn s r1 s2 N A)).
  - injection E as <-.
    exact (conj (pool_inv_get_internal P _ s I) (keys_get_internal _ s N)).
  - destruct (free fd pn fr s) as [[r1 s2] |] eqn:F; cbn in E; [| discriminate].
    injection E as <-.
    exact (conj (pool_inv_free P fd pn fr s r1 s2 I F) (keys_free fd pn fr s r1 s2 N F)).
  - injection E as <-. unfold evict_frames.
    exact (foreach_pool_inv P count act (frames_ s) 0 s I N (incl_refl _) N).
  - injection E as <-. split; [| exact N].
    apply (pool_inv_lists P s); [reflexivity | reflexivity | exact I].
Qed.

(** With [evict_frames] calls and pin releases interleaved among
    [alloc], [get] and [free], the resident set still never exceeds the
    pool: from a fresh pool of [P] frames, every reachable state keeps
    distinct FrameIds in the cache, never holds a frame both in the cache
    and in the free list, and has at most [P] resident frames. *)
Theorem resident_within_pool_with_evict (P : nat) (cs : list Call) (s : FrameManager) :
  exec_calls cs (init P) = Some s ->
  NoDup (map fst (frames_ s)) /\
  (forall x, In x (map snd (frames_ s)) -> ~ In x (allocator_ s)) /\
  (length (frames_ s) <= P)%nat.
Proof.
  intros H.
  assert (Inv : forall cs s0, pool_inv P s0 -> NoDup (map fst (frames_ s0)) ->
                exec_calls cs s0 = Some s -> pool_inv P s /\ NoDup (map fst (frames_ s))).
  { induction cs0 as [| c r IH]; intros s0 I N E; cbn in E.
    - injection E as <-. split; assumption.
    - destruct (exec_call c s0) as [s1 |] eqn:C; [| discriminate].
      destruct (pool_inv_call P c s0 s1 I N C) as [I1 N1]. exact (IH s1 I1 N1 E). }
  destruct (Inv cs (init P) (pool_inv_init P) (NoDup_nil _) H) as [I N].
  split; [exact N |]. split; [exact (proj1 (proj2 (proj2 I))) |].
  exact (pool_inv_length P s I).
Qed.

Lemma resident_within_pool_with_evict_witness :
  exec_calls [CallOp (OpAlloc 3 7); CallUnpin 0%nat; CallEvict 1 (fun _ _ => SUCCESS);
              CallOp (OpAlloc 3 8)] (init 1)
  = Some (match exec_calls [CallOp (OpAlloc 3 7); CallUnpin 0%nat;
                            CallEvict 1 (fun _ _ => SUCCESS); CallOp (OpAlloc 3 8)] (init 1)
          with Some s => s | None => init 1 end) /\
  (length (frames_ (match exec_calls [CallOp (OpAlloc 3 7); CallUnpin 0%nat;
                                     CallEvict 1 (fun _ _ => SUCCESS); CallOp (OpAlloc 3 8)]
                                    (init 1)
                    with Some s => s | None => init 1 end)) <= 1)%nat.
Proof.
  assert (E : exec_calls [CallOp (OpAlloc 3 7); CallUnpin 0%nat; CallEvict 1 (fun _ _ => SUCCESS);
                          CallOp (OpAlloc 3 8)] (init 1)
              = Some (match exec_calls [CallOp (OpAlloc 3 7); CallUnpin 0%nat;
                                        CallEvict 1 (fun _ _ => SUCCESS); CallOp (OpAlloc 3 8)]
                                       (init 1)
                      with Some s => s | None => init 1 end))
    by (vm_compute; reflexivity).
  split; [exact E |].
  exact (proj2 (proj2 (resident_within_pool_with_evict 1 _ _ E))).
Defined.

End FrameExtras.
